(** * kozo: the circular-buffer queue and the three-state Optional

    A shallow embedding of [pkg/queue] (the [Queue] type, a mutex-guarded
    ring buffer with doubling growth) and of [optional/optional.go] (the
    [Optional] wrapper and its JSON hooks), followed by the properties the
    specification states about them.

    Conventions.
    - Go's [int] is a 64-bit two's-complement integer: it is a [Z] and
      every arithmetic operation wraps explicitly ([GoInt.wrap]).
    - A slice is a [list]; indexing out of range and [make] with a negative
      length panic.  A panic (and any other abnormal end of a call) is
      [None]; a call that returns is [Some].  Memory does not run out:
      [make] fails on a negative length only.
    - A pointer [*T] is an [option T], [None] for [nil].
    - [sync.Mutex] is a boolean, [true] while held. *)

From Stdlib Require Import Strings.Byte.
From stdpp Require Import base numbers option list strings.

Local Open Scope Z_scope.

(** ** Go's [int] *)

Module GoInt.

Definition min_int : Z := - 2 ^ 63.
Definition max_int : Z := 2 ^ 63 - 1.

Definition in_range (z : Z) : Prop := min_int ≤ z ≤ max_int.

(** Two's-complement reduction of a mathematical integer to 64 bits. *)
Definition wrap (z : Z) : Z := (z + 2 ^ 63) `mod` 2 ^ 64 - 2 ^ 63.

Definition add (a b : Z) : Z := wrap (a + b).
Definition sub (a b : Z) : Z := wrap (a - b).
Definition mul (a b : Z) : Z := wrap (a * b).

(** [a % b]: truncated remainder; a zero divisor panics. *)
Definition rem (a b : Z) : option Z :=
  if decide (b = 0) then None else Some (wrap (a `rem` b)).

End GoInt.

(** ** Slices *)

Section Slice.
Context {T : Type} (zero : T).

(** [len(s)] *)
Definition len (s : list T) : Z := Z.of_nat (length s).

(** [make([]T, n)]: [n] zero values; panics when [n] is negative. *)
Definition make (n : Z) : option (list T) :=
  if decide (n < 0) then None else Some (replicate (Z.to_nat n) zero).

(** [s[i]] as an expression: panics out of range. *)
Definition index (s : list T) (i : Z) : option T :=
  if decide (0 ≤ i) then s !! Z.to_nat i else None.

(** [s[i] = v]: panics out of range. *)
Definition store (s : list T) (i : Z) (v : T) : option (list T) :=
  if decide (0 ≤ i < len s) then Some (<[Z.to_nat i := v]> s) else None.

End Slice.

(** ** The queue *)

Record Queue (T : Type) : Type := mkQueue {
  mu : bool;
  data : list T;
  head : Z;
  tail : Z;
  count : Z
}.
Arguments mkQueue {T}.
Arguments mu {T}.
Arguments data {T}.
Arguments head {T}.
Arguments tail {T}.
Arguments count {T}.

Section Queue.
Context {T : Type} (zero : T).
Local Abbreviation Queue := (Queue T).

Definition set_mu (b : bool) (q : Queue) : Queue :=
  mkQueue b (data q) (head q) (tail q) (count q).
Definition set_data (d : list T) (q : Queue) : Queue :=
  mkQueue (mu q) d (head q) (tail q) (count q).
Definition set_head (h : Z) (q : Queue) : Queue :=
  mkQueue (mu q) (data q) h (tail q) (count q).
Definition set_tail (t : Z) (q : Queue) : Queue :=
  mkQueue (mu q) (data q) (head q) t (count q).
Definition set_count (c : Z) (q : Queue) : Queue :=
  mkQueue (mu q) (data q) (head q) (tail q) c.

(** [q.mu.Lock()]: a sequential caller that finds the mutex held never
    gets it (the runtime aborts: all goroutines are asleep). *)
Definition Lock (q : Queue) : option Queue :=
  if mu q then None else Some (set_mu true q).

(** [q.mu.Unlock()] *)
Definition Unlock (q : Queue) : Queue := set_mu false q.

(** [q.mu.Lock(); defer q.mu.Unlock(); body] *)
Definition locked {R : Type} (body : Queue → option (R * Queue))
    (q : Queue) : option (R * Queue) :=
  q ← Lock q;
  '(r, q) ← body q;
  Some (r, Unlock q).

(** [New]: a zero [Queue] but for a buffer of two slots. *)
Definition New : option Queue :=
  d ← make zero 2;
  Some (mkQueue false d 0 0 0).

Definition NewWithCapacity (capacity : Z) : option Queue :=
  let capacity := if decide (capacity < 1) then 1 else capacity in
  d ← make zero capacity;
  Some (mkQueue false d 0 0 0).

(** The loop of [resize], entered at [i] with [n] iterations to go:
    [newData[i] = q.data[(q.head+i) % len(q.data)]]. *)
Fixpoint resize_loop (q : Queue) (n : nat) (i : Z) (newData : list T)
    : option (list T) :=
  match n with
  | O => Some newData
  | S n =>
      j ← GoInt.rem (GoInt.add (head q) i) (len (data q));
      x ← index (data q) j;
      newData ← store newData i x;
      resize_loop q n (GoInt.add i 1) newData
  end.

(** [resize]; runs with the lock held. *)
Definition resize (q : Queue) : option Queue :=
  let newCap := GoInt.mul (len (data q)) 2 in
  let newCap := if decide (newCap = 0) then 1 else newCap in
  newData ← make zero newCap;
  newData ← resize_loop q (Z.to_nat (count q)) 0 newData;
  let q := set_data newData q in
  let q := set_head 0 q in
  Some (set_tail (count q) q).

(** The body of [Enqueue], between [Lock] and the deferred [Unlock]. *)
Definition enqueue_cs (v : T) (q : Queue) : option (unit * Queue) :=
  q ← (if decide (count q = len (data q)) then resize q else Some q);
  d ← store (data q) (tail q) v;
  let q := set_data d q in
  t ← GoInt.rem (GoInt.add (tail q) 1) (len (data q));
  let q := set_tail t q in
  Some (tt, set_count (GoInt.add (count q) 1) q).

Definition Enqueue (v : T) : Queue → option (unit * Queue) :=
  locked (enqueue_cs v).

Definition dequeue_cs (q : Queue) : option ((T * bool) * Queue) :=
  if decide (count q = 0) then Some ((zero, false), q)
  else
    v ← index (data q) (head q);
    d ← store (data q) (head q) zero;
    let q := set_data d q in
    h ← GoInt.rem (GoInt.add (head q) 1) (len (data q));
    let q := set_head h q in
    Some ((v, true), set_count (GoInt.sub (count q) 1) q).

Definition Dequeue : Queue → option ((T * bool) * Queue) :=
  locked dequeue_cs.

Definition peek_cs (q : Queue) : option ((T * bool) * Queue) :=
  if decide (count q = 0) then Some ((zero, false), q)
  else
    v ← index (data q) (head q);
    Some ((v, true), q).

Definition Peek : Queue → option ((T * bool) * Queue) :=
  locked peek_cs.

Definition isEmpty_cs (q : Queue) : option (bool * Queue) :=
  Some (bool_decide (count q = 0), q).

Definition IsEmpty : Queue → option (bool * Queue) := locked isEmpty_cs.

Definition len_cs (q : Queue) : option (Z * Queue) := Some (count q, q).

Definition Len : Queue → option (Z * Queue) := locked len_cs.

(** The loop of [Clear], entered at [i] with [n] iterations to go:
    [q.data[i] = zero]. *)
Fixpoint clear_loop (n : nat) (i : Z) (d : list T) : option (list T) :=
  match n with
  | O => Some d
  | S n => d ← store d i zero; clear_loop n (GoInt.add i 1) d
  end.

Definition clear_cs (q : Queue) : option (unit * Queue) :=
  d ← clear_loop (Z.to_nat (len (data q))) 0 (data q);
  let q := set_data d q in
  let q := set_head 0 q in
  let q := set_tail 0 q in
  Some (tt, set_count 0 q).

Definition Clear : Queue → option (unit * Queue) := locked clear_cs.

End Queue.

(** ** Calls, results and runs *)

(** A method call on a queue, and what it returns. *)
Inductive call (T : Type) : Type :=
| CEnqueue (v : T)
| CDequeue
| CPeek
| CLen
| CIsEmpty
| CClear.
Arguments CEnqueue {T}.
Arguments CDequeue {T}.
Arguments CPeek {T}.
Arguments CLen {T}.
Arguments CIsEmpty {T}.
Arguments CClear {T}.

Inductive ret (T : Type) : Type :=
| RUnit
| RElem (v : T) (found : bool)
| RInt (n : Z)
| RBool (b : bool).
Arguments RUnit {T}.
Arguments RElem {T}.
Arguments RInt {T}.
Arguments RBool {T}.

Section Calls.
Context {T : Type} (zero : T).
Local Abbreviation Queue := (Queue T).
Local Abbreviation call := (call T).
Local Abbreviation ret := (ret T).

Definition elem_ret (r : (T * bool) * Queue) : ret * Queue :=
  (RElem r.1.1 r.1.2, r.2).

(** The critical section of a call: what runs while the mutex is held. *)
Definition critical (c : call) (q : Queue) : option (ret * Queue) :=
  match c with
  | CEnqueue v => prod_map (λ _, RUnit) id <$> enqueue_cs zero v q
  | CDequeue => elem_ret <$> dequeue_cs zero q
  | CPeek => elem_ret <$> peek_cs zero q
  | CLen => prod_map RInt id <$> len_cs q
  | CIsEmpty => prod_map RBool id <$> isEmpty_cs q
  | CClear => prod_map (λ _, RUnit) id <$> clear_cs zero q
  end.

(** The call as a whole. *)
Definition exec (c : call) (q : Queue) : option (ret * Queue) :=
  match c with
  | CEnqueue v => prod_map (λ _, RUnit) id <$> Enqueue zero v q
  | CDequeue => elem_ret <$> Dequeue zero q
  | CPeek => elem_ret <$> Peek zero q
  | CLen => prod_map RInt id <$> Len q
  | CIsEmpty => prod_map RBool id <$> IsEmpty q
  | CClear => prod_map (λ _, RUnit) id <$> Clear zero q
  end.

(** A queue as a constructor returns it. *)
Definition fresh (q : Queue) : Prop :=
  New zero = Some q
  ∨ ∃ capacity, GoInt.in_range capacity
      ∧ NewWithCapacity zero capacity = Some q.

(** The states a program can bring a queue to. *)
Inductive reachable : Queue → Prop :=
| reachable_New q :
    New zero = Some q → reachable q
| reachable_NewWithCapacity capacity q :
    GoInt.in_range capacity →
    NewWithCapacity zero capacity = Some q → reachable q
| reachable_call c q r q' :
    reachable q → exec c q = Some (r, q') → reachable q'.

(** [Enqueue] each value of [vs], first to last. *)
Fixpoint enqueue_all (vs : list T) (q : Queue) : option Queue :=
  match vs with
  | [] => Some q
  | v :: vs => '(_, q) ← Enqueue zero v q; enqueue_all vs q
  end.

(** [n] calls of [Dequeue], with what each returned. *)
Fixpoint dequeue_n (n : nat) (q : Queue)
    : option (list (T * bool) * Queue) :=
  match n with
  | O => Some ([], q)
  | S n =>
      '(r, q) ← Dequeue zero q;
      '(rs, q) ← dequeue_n n q;
      Some (r :: rs, q)
  end.

(** The [i]-th slot of the ring, counted from [head]. *)
Definition slot (q : Queue) (i : Z) : option T :=
  data q !! Z.to_nat ((head q + i) `mod` len (data q)).

(** The live elements, oldest first: the slots [0 .. count). *)
Definition contents (q : Queue) : list T :=
  (λ i : nat, default zero (slot q (Z.of_nat i)))
    <$> seq 0 (Z.to_nat (count q)).

(** The representation invariant of the specification. *)
Record rep_inv (q : Queue) : Prop := {
  inv_cap : 1 ≤ len (data q);
  inv_count : 0 ≤ count q ≤ len (data q);
  inv_head : 0 ≤ head q < len (data q);
  inv_tail : 0 ≤ tail q < len (data q);
  inv_span : tail q = (head q + count q) `mod` len (data q)
}.

(** What holds inside a critical section as well: the invariant, and a
    buffer whose length is an [int]. *)
Definition cs_inv (q : Queue) : Prop :=
  rep_inv q ∧ len (data q) ≤ GoInt.max_int.

(** A queue between two calls: the same, and the mutex is free. *)
Definition wf (q : Queue) : Prop := cs_inv q ∧ mu q = false.

(** Room for one more element without an overflowing [resize]. *)
Definition can_grow (q : Queue) : Prop :=
  count q < len (data q) ∨ 2 * len (data q) ≤ GoInt.max_int.

Definition admits (c : call) (q : Queue) : Prop :=
  match c with
  | CEnqueue _ => can_grow q
  | _ => True
  end.

(** The queue of the specification: a list, oldest element first. *)
Definition fifo_step (c : call) (l : list T) : ret * list T :=
  match c with
  | CEnqueue v => (RUnit, l ++ [v])
  | CDequeue =>
      match l with
      | [] => (RElem zero false, [])
      | x :: l' => (RElem x true, l')
      end
  | CPeek =>
      match l with
      | [] => (RElem zero false, l)
      | x :: _ => (RElem x true, l)
      end
  | CLen => (RInt (Z.of_nat (length l)), l)
  | CIsEmpty => (RBool (match l with [] => true | _ => false end), l)
  | CClear => (RUnit, [])
  end.

End Calls.

(** The wrap-around scenario of the test suite, on [int] elements: what
    the first [Dequeue] returns, the queue after [Enqueue(4)] and after
    [Enqueue(5)], and what the last four calls of [Dequeue] return. *)
Definition wrap_around_trace
    : option ((Z * bool) * Queue Z * Queue Z * list (Z * bool)) :=
  q ← NewWithCapacity 0 3;
  '(_, q) ← Enqueue 0 1 q;
  '(_, q) ← Enqueue 0 2 q;
  '(r1, q) ← Dequeue 0 q;
  '(_, q) ← Enqueue 0 3 q;
  '(_, full) ← Enqueue 0 4 q;
  '(_, grown) ← Enqueue 0 5 full;
  '(rs, _) ← dequeue_n 0 4 grown;
  Some (r1, full, grown, rs).

(** ** Goroutines sharing one queue *)

(** Where a goroutine stands in the call it is making. *)
Inductive phase (T : Type) : Type :=
| Calling              (* about to run [q.mu.Lock()] *)
| Holding              (* [Lock] has returned, the body is to run *)
| Leaving (r : ret T). (* the body has run, the deferred [Unlock] is due *)
Arguments Calling {T}.
Arguments Holding {T}.
Arguments Leaving {T}.

(** A goroutine: the calls it still has to make, first to last, where it
    stands in the first of them, and what its finished calls returned. *)
Record goroutine (T : Type) : Type := mkGoroutine {
  todo : list (call T);
  at_phase : phase T;
  got : list (ret T)
}.
Arguments mkGoroutine {T}.
Arguments todo {T}.
Arguments at_phase {T}.
Arguments got {T}.

(** The program as a whole: the queue and the goroutines that share it. *)
Record world (T : Type) : Type := mkWorld {
  shared : Queue T;
  routines : list (goroutine T)
}.
Arguments mkWorld {T}.
Arguments shared {T}.
Arguments routines {T}.

Section Goroutines.
Context {T : Type} (zero : T).
Local Abbreviation Queue := (Queue T).
Local Abbreviation call := (call T).
Local Abbreviation ret := (ret T).
Local Abbreviation goroutine := (goroutine T).
Local Abbreviation world := (world T).

(** One step of a goroutine on the queue.  There is none when it has no
    call left, when it waits for the mutex, and when its call panics. *)
Definition step_routine (q : Queue) (g : goroutine)
    : option (Queue * goroutine) :=
  match todo g with
  | [] => None
  | c :: rest =>
      match at_phase g with
      | Calling =>
          q ← Lock q;
          Some (q, mkGoroutine (c :: rest) Holding (got g))
      | Holding =>
          '(r, q) ← critical zero c q;
          Some (q, mkGoroutine (c :: rest) (Leaving r) (got g))
      | Leaving r =>
          Some (Unlock q, mkGoroutine rest Calling (got g ++ [r]))
      end
  end.

(** The scheduler lets goroutine [i] take its next step. *)
Definition step (i : nat) (w : world) : option world :=
  g ← routines w !! i;
  '(q, g) ← step_routine (shared w) g;
  Some (mkWorld q (<[i := g]> (routines w))).

(** A run under a schedule: the goroutine to step, time after time.  Every
    interleaving of the goroutines is the run of some schedule. *)
Fixpoint run (sched : list nat) (w : world) : option world :=
  match sched with
  | [] => Some w
  | i :: sched => w ← step i w; run sched w
  end.

Definition spawn (p : list call) : goroutine := mkGoroutine p Calling [].

Definition start (q : Queue) (progs : list (list call)) : world :=
  mkWorld q (spawn <$> progs).

(** One goroutine for each list of values, enqueuing them in turn. *)
Definition enqueuers (vss : list (list T)) : list (list call) :=
  (λ vs : list T, CEnqueue <$> vs) <$> vss.

(** [G] goroutines of [M] calls of [Dequeue] each. *)
Definition dequeuers (G M : nat) : list (list call) :=
  replicate G (replicate M CDequeue).

Definition finished (w : world) : Prop :=
  Forall (λ g, todo g = []) (routines w).

(** The value a successful [Dequeue] returned. *)
Definition taken_of (r : ret) : option T :=
  match r with
  | RElem v true => Some v
  | _ => None
  end.

(** Everything the goroutines have dequeued, goroutine by goroutine. *)
Definition all_taken (w : world) : list T :=
  concat ((λ g, omap taken_of (got g)) <$> routines w).

Definition in_cs (g : goroutine) : bool :=
  match at_phase g with
  | Calling => false
  | _ => true
  end.

(** The mutex is held exactly when one goroutine is past [Lock] and short
    of [Unlock], and no two goroutines ever are. *)
Definition mutex_ok (w : world) : Prop :=
  length (filter (λ g, in_cs g = true) (routines w))
  = if mu (shared w) then 1%nat else 0%nat.

(** Values a goroutine has yet to write into the queue. *)
Definition enq_values (p : list call) : list T :=
  omap (λ c, match c with CEnqueue v => Some v | _ => None end) p.

Definition pending (g : goroutine) : list T :=
  enq_values (match at_phase g with
              | Leaving _ => drop 1 (todo g)
              | _ => todo g
              end).

(** Values a goroutine has taken out, the call it is leaving included. *)
Definition taken_so_far (g : goroutine) : list T :=
  omap taken_of (got g ++ match at_phase g with
                          | Leaving r => [r]
                          | _ => []
                          end).

Definition enq_or_deq (c : call) : Prop :=
  match c with
  | CEnqueue _ | CDequeue => True
  | _ => False
  end.

(** What every run keeps true, for goroutines that enqueue and dequeue
    the values [total]. *)
Record world_inv (total : list T) (w : world) : Prop := {
  winv_queue : cs_inv (shared w);
  winv_mutex : mutex_ok w;
  winv_calls : Forall (λ g, Forall enq_or_deq (todo g)) (routines w);
  winv_phase : Forall (λ g, in_cs g = true → todo g ≠ []) (routines w);
  winv_values :
    concat (pending <$> routines w) ++ contents zero (shared w)
      ++ concat (taken_so_far <$> routines w) ≡ₚ total
}.

End Goroutines.

(** ** Optional *)

Inductive result (E A : Type) : Type :=
| Ok (a : A)
| Err (e : E).
Arguments Ok {E A}.
Arguments Err {E A}.

(** What [encoding/json] does at the wrapped type [T]: [json.Marshal(v)]
    for [v] of type [T], and [json.Unmarshal(data, &v)] into a fresh
    [var v T].  [err_text] is the [Error()] of its errors. *)
Class JSON (T : Type) : Type := {
  json_error : Type;
  err_text : json_error → string;
  Marshal : T → result json_error (list byte);
  Unmarshal : list byte → result json_error T
}.

(** [*T]: the pointer is [nil] or it points to a value. *)
Record Optional (T : Type) : Type := mkOptional {
  value : option T;
  nonEmpty : bool
}.
Arguments mkOptional {T}.
Arguments value {T}.
Arguments nonEmpty {T}.

(** The error of [fmt.Errorf] with a [%w] verb: a message, and the error
    it wraps. *)
Record wrapError (E : Type) : Type := mkWrapError {
  msg : string;
  wrapped : E
}.
Arguments mkWrapError {E}.
Arguments msg {E}.
Arguments wrapped {E}.

#[global] Instance byte_eq_decision : EqDecision byte := Byte.byte_eq_dec.

(** The bytes of [null]. *)
Definition null_literal : list byte := String.list_byte_of_string "null".

Section Optional.
Context {T : Type}.
Local Abbreviation Optional := (Optional T).

(** [Some(v)]. *)
Definition Some_ (v : T) : Optional := mkOptional (Some v) true.

(** [None()]. *)
Definition None_ : Optional := mkOptional None false.

(** [Some(nil)], which only [UnmarshalJSON] makes. *)
Definition Some_nil : Optional := mkOptional None true.

Definition IsZero (o : Optional) : bool := negb (nonEmpty o).

Definition IsNone (o : Optional) : bool := bool_decide (nonEmpty o = false).

Definition IsSome (o : Optional) : bool := negb (IsNone o).

Definition IsNull (o : Optional) : bool :=
  IsSome o && bool_decide (value o = None).

Definition IsNotNull (o : Optional) : bool :=
  IsSome o && bool_decide (value o ≠ None).

Definition IsNullOrNone (o : Optional) : bool := IsNull o || IsNone o.

(** [bytes.TrimSpace], from the standard library. *)
Variable TrimSpace : list byte → list byte.

Context `{JSON T}.

(** [json.Marshal] of a [*T]: [null] for [nil], and what the value it
    points to marshals to otherwise. *)
Definition Marshal_ptr (p : option T) : result json_error (list byte) :=
  match p with
  | None => Ok null_literal
  | Some v => Marshal v
  end.

Definition MarshalJSON (o : Optional) : result json_error (list byte) :=
  Marshal_ptr (value o).

(** [fmt.Errorf("cannot unmarshal Optional: %w", err)] *)
Definition Errorf_w (err : json_error) : wrapError json_error :=
  mkWrapError ("cannot unmarshal Optional: " +:+ err_text err) err.

(** [errors.Unwrap] *)
Definition Unwrap (e : wrapError json_error) : json_error := wrapped e.

(** The receiver after the call, and the error returned ([None] is the
    [nil] error). *)
Definition UnmarshalJSON (o : Optional) (data : list byte)
    : Optional * option (wrapError json_error) :=
  let data := TrimSpace data in
  if decide (data = null_literal) then
    let o := mkOptional (value o) true in
    let o := mkOptional None (nonEmpty o) in
    (o, None)
  else
    match Unmarshal data with
    | Err err => (o, Some (Errorf_w err))
    | Ok v =>
        let o := mkOptional (Some v) (nonEmpty o) in
        let o := mkOptional (value o) true in
        (o, None)
    end.

(** A struct field of type [Optional] under [encoding/json], as the
    comments of [MarshalJSON] and [UnmarshalJSON] have it.  Encoding: with
    the [omitzero] tag the field is left out when [IsZero] says so, and
    otherwise it is what [MarshalJSON] returns.  [None] is a field left
    out. *)
Definition marshal_field (omitzero : bool) (o : Optional)
    : result json_error (option (list byte)) :=
  if omitzero && IsZero o then Ok None
  else match MarshalJSON o with
       | Ok b => Ok (Some b)
       | Err e => Err e
       end.

(** Decoding: a field the object lacks is not touched, and otherwise
    [UnmarshalJSON] runs on the field's bytes. *)
Definition unmarshal_field (field : option (list byte)) (o : Optional)
    : Optional * option (wrapError json_error) :=
  match field with
  | None => (o, None)
  | Some data => UnmarshalJSON o data
  end.

End Optional.

(** *** Two wrapped types for examples: [bool] and [*bool] *)

(** White space for [bytes.TrimSpace] when every byte is ASCII. *)
Definition ascii_space (b : byte) : bool :=
  match b with
  | x09 | x0a | x0b | x0c | x0d | x20 => true
  | _ => false
  end.

Fixpoint drop_space (l : list byte) : list byte :=
  match l with
  | [] => []
  | b :: l' => if ascii_space b then drop_space l' else l
  end.

(** [bytes.TrimSpace] on ASCII input. *)
Definition trim_ascii (l : list byte) : list byte :=
  reverse (drop_space (reverse (drop_space l))).

Definition lit (s : string) : list byte := String.list_byte_of_string s.

(** [encoding/json] at [bool], on input without white space around it. *)
#[local] Instance json_bool : JSON bool := {|
  json_error := string;
  err_text := id;
  Marshal := λ b : bool, Ok (lit (if b then "true" else "false")%string);
  Unmarshal := λ data : list byte,
    if decide (data = lit "true") then Ok true
    else if decide (data = lit "false") then Ok false
    else if decide (data = lit "null") then Ok false
    else Err "json: cannot unmarshal into Go value of type bool"
|}.

(** [encoding/json] at [*bool], on input without white space around it. *)
#[local] Instance json_ptr_bool : JSON (option bool) := {|
  json_error := string;
  err_text := id;
  Marshal := λ p : option bool, Marshal_ptr p;
  Unmarshal := λ data : list byte,
    if decide (data = lit "null") then Ok None
    else match Unmarshal (T := bool) data with
         | Ok b => Ok (Some b)
         | Err e => Err e
         end
|}.


(** ** Sequences of calls, and the slots no element lives in *)

Section Runs.
Context {T : Type} (zero : T).
Local Abbreviation Queue := (Queue T).
Local Abbreviation call := (call T).
Local Abbreviation ret := (ret T).
Local Abbreviation world := (world T).

(** The calls of [cs] one after the other, with what each returned. *)
Fixpoint exec_all (cs : list call) (q : Queue)
    : option (list ret * Queue) :=
  match cs with
  | [] => Some ([], q)
  | c :: cs =>
      '(r, q) ← exec zero c q;
      '(rs, q) ← exec_all cs q;
      Some (r :: rs, q)
  end.

(** The same calls on the list queue. *)
Fixpoint fifo_run (cs : list call) (l : list T) : list ret * list T :=
  match cs with
  | [] => ([], l)
  | c :: cs =>
      let '(r, l) := fifo_step zero c l in
      let '(rs, l) := fifo_run cs l in
      (r :: rs, l)
  end.

Definition is_enqueue (c : call) : bool :=
  match c with
  | CEnqueue _ => true
  | _ => false
  end.

(** Index [k] of the buffer holds a live element. *)
Definition live (q : Queue) (k : Z) : Prop :=
  ∃ i, 0 ≤ i < count q ∧ k = (head q + i) `mod` len (data q).

(** Every slot that holds no live element holds the zero value. *)
Definition dead_zero (q : Queue) : Prop :=
  ∀ k : nat,
    Z.of_nat k < len (data q) → ¬ live q (Z.of_nat k) →
    data q !! k = Some zero.

(** What a step of goroutine [i] adds to the record of a run: the call
    whose critical section it runs, if it runs one, and what that
    returns. *)
Definition log_step (i : nat) (w : world) : list (nat * call * ret) :=
  match routines w !! i with
  | Some g =>
      match at_phase g, todo g with
      | Holding, c :: _ =>
          match critical zero c (shared w) with
          | Some (r, _) => [(i, c, r)]
          | None => []
          end
      | _, _ => []
      end
  | None => []
  end.

(** The record of a run: the critical sections in the order they ran. *)
Fixpoint log (sched : list nat) (w : world) : list (nat * call * ret) :=
  match sched with
  | [] => []
  | i :: sched =>
      match step zero i w with
      | Some w' => log_step i w ++ log sched w'
      | None => []
      end
  end.

Definition by_routine (i : nat) (es : list (nat * call * ret))
    : list (nat * call * ret) :=
  filter (λ e, e.1.1 = i) es.

Definition calls_of (es : list (nat * call * ret)) : list call :=
  (λ e, e.1.2) <$> es.

Definition rets_of (es : list (nat * call * ret)) : list ret :=
  (λ e, e.2) <$> es.

(** What a goroutine has left to do once the call it is leaving is set
    aside, and what that call returned. *)
Definition remaining (g : goroutine T) : list call :=
  match at_phase g with
  | Leaving _ => drop 1 (todo g)
  | _ => todo g
  end.

Definition leaving (g : goroutine T) : list ret :=
  match at_phase g with
  | Leaving r => [r]
  | _ => []
  end.

(** What every run keeps true of its record [es], for goroutines started
    on the programs [progs]. *)
Record log_inv (progs : list (list call)) (es : list (nat * call * ret))
    (w : world) : Prop := {
  linv_queue : cs_inv (shared w);
  linv_fifo :
    fifo_run (calls_of es) [] = (rets_of es, contents zero (shared w));
  linv_phase : Forall (λ g, in_cs g = true → todo g ≠ []) (routines w);
  linv_routines :
    ∀ i g, routines w !! i = Some g →
      progs !! i = Some (calls_of (by_routine i es) ++ remaining g)
      ∧ rets_of (by_routine i es) = got g ++ leaving g
}.

End Runs.

(** ** Optional: inspection, access and combination *)

(** How a call can end other than by returning: [panic(message)], or the
    dereference of a [nil] pointer. *)
Inductive panic : Type :=
| Panicked (message : string)
| NilDereference.

Section OptionalOps.
Context {T : Type} (zero : T).
Local Abbreviation Optional := (Optional T).

(** [*p] *)
Definition deref (p : option T) : result panic T :=
  match p with
  | Some v => Ok v
  | None => Err NilDereference
  end.

(** [==] at the comparable type [T] is the parameter [equal], with the
    operands in the order of the source, [value == *o.value].  It is not
    the equality of values: it answers [false] at a NaN and for two
    pointers to equal values, and it panics on an interface that holds a
    value of a type that cannot be compared. *)
Definition ContainsComparable (equal : T → T → result panic bool)
    (o : Optional) (v : T) : result panic bool :=
  if IsNotNull o then
    match deref (value o) with
    | Ok x => equal v x
    | Err e => Err e
    end
  else Ok false.

Definition Contains (o : Optional) (v : T) (compareFunc : T → T → bool)
    : result panic bool :=
  if IsNotNull o then
    match deref (value o) with
    | Ok x => Ok (compareFunc x v)
    | Err e => Err e
    end
  else Ok false.

Definition ExpectPtr (o : Optional) (message : string)
    : result panic (option T) :=
  if IsSome o then Ok (value o) else Err (Panicked message).

Definition Expect (o : Optional) (message : string) : result panic T :=
  if IsNotNull o then deref (value o) else Err (Panicked message).

Definition UnwrapPtr (o : Optional) : option T * bool :=
  if IsSome o then (value o, true) else (None, false).

(** The method [Unwrap]; [Unwrap] without the underscore is
    [errors.Unwrap]. *)
Definition Unwrap_ (o : Optional) : result panic (T * bool) :=
  if IsNotNull o then
    match deref (value o) with
    | Ok x => Ok (x, true)
    | Err e => Err e
    end
  else Ok (zero, false).

Definition UnwrapOrPtr (o : Optional) (defaultValue : option T)
    : option T :=
  if IsSome o then value o else defaultValue.

Definition UnwrapOr (o : Optional) (defaultValue : T) : result panic T :=
  if IsNotNull o then deref (value o) else Ok defaultValue.

Definition UnwrapOrElsePtr (o : Optional) (defaultFunc : unit → option T)
    : option T :=
  if IsSome o then value o else defaultFunc tt.

Definition UnwrapOrElse (o : Optional) (defaultFunc : unit → T)
    : result panic T :=
  if IsNotNull o then deref (value o) else Ok (defaultFunc tt).

(** [Take(o)] for [o] a [*Optional[T]]: [None] is the [nil] pointer,
    [Some x] a pointer to a variable that holds [x].  The result is what
    is returned and what the variable holds afterwards. *)
Definition Take (o : option Optional) : Optional * option Optional :=
  match o with
  | None => (None_, None)
  | Some x =>
      let old := x in
      let x := mkOptional None (nonEmpty x) in
      let x := mkOptional (value x) false in
      (old, Some x)
  end.

Definition Clone (o : Optional) : result panic Optional :=
  if IsNone o then Ok o
  else
    let n := mkOptional None (nonEmpty o) in
    if IsNotNull o then
      match deref (value o) with
      | Ok ptr => Ok (mkOptional (Some ptr) (nonEmpty n))
      | Err e => Err e
      end
    else Ok n.

Definition FilterPtr (o : Optional) (predicate : option T → bool)
    : Optional :=
  if IsSome o && predicate (value o) then o else None_.

Definition Filter (o : Optional) (predicate : T → bool)
    : result panic Optional :=
  if IsNotNull o then
    match deref (value o) with
    | Ok x => Ok (if predicate x then o else None_)
    | Err e => Err e
    end
  else Ok None_.

(** The callbacks of [MatchPtr] and [Match] return nothing: they act on
    the state [S] of the caller. *)
Definition MatchPtr {S : Type} (o : Optional)
    (someFunc : option T → S → S) (noneFunc : S → S) (s : S) : S :=
  if IsSome o then someFunc (value o) s else noneFunc s.

Definition Match {S : Type} (o : Optional)
    (someFunc : T → S → S) (noneFunc : S → S) (s : S) : result panic S :=
  if IsNotNull o then
    match deref (value o) with
    | Ok x => Ok (someFunc x s)
    | Err e => Err e
    end
  else Ok (noneFunc s).

Definition Or (o other : Optional) : Optional :=
  if IsSome o then o else other.

Definition OrElse (o : Optional) (f : unit → Optional) : Optional :=
  if IsSome o then o else f tt.

Definition Xor (o other : Optional) : Optional :=
  if IsSome o && IsNone other then o
  else if IsNone o && IsSome other then other
  else None_.

(** The invariant of the representation: an empty [Optional] has a [nil]
    pointer. *)
Definition well_formed (o : Optional) : Prop :=
  nonEmpty o = false → value o = None.

End OptionalOps.

(** ** Range *)

Module _range.

(** A boundary: [Value] is a [*T]. *)
Record RangeItem (T : Type) : Type := mkRangeItem {
  Value : option T;
  Inclusive : bool
}.
Arguments mkRangeItem {T}.
Arguments Value {T}.
Arguments Inclusive {T}.

(** An interval: [Min] and [Max] are [*RangeItem[T]]. *)
Record Range (T : Type) : Type := mkRange {
  Min : option (RangeItem T);
  Max : option (RangeItem T)
}.
Arguments mkRange {T}.
Arguments Min {T}.
Arguments Max {T}.

Section Range.
Context {T : Type}.

Definition New (min max : option (RangeItem T)) : Range T :=
  mkRange min max.

Definition Closed (min max : T) : Range T :=
  mkRange (Some (mkRangeItem (Some min) true))
          (Some (mkRangeItem (Some max) true)).

Definition Open (min max : T) : Range T :=
  mkRange (Some (mkRangeItem (Some min) false))
          (Some (mkRangeItem (Some max) false)).

Definition HalfOpen (min max : T) : Range T :=
  mkRange (Some (mkRangeItem (Some min) true))
          (Some (mkRangeItem (Some max) false)).

Definition GreaterThan (min : T) : Range T :=
  mkRange (Some (mkRangeItem (Some min) false)) None.

Definition AtLeast (min : T) : Range T :=
  mkRange (Some (mkRangeItem (Some min) true)) None.

Definition LessThan (max : T) : Range T :=
  mkRange None (Some (mkRangeItem (Some max) false)).

Definition AtMost (max : T) : Range T :=
  mkRange None (Some (mkRangeItem (Some max) true)).

(** The first half of [Contains]: [false] is the early [return false],
    [true] falls through to the second half. *)
Definition above_min (r : Range T) (val : T) (less : T → T → bool) : bool :=
  match Min r with
  | Some item =>
      match Value item with
      | Some min =>
          if Inclusive item then
            if less val min then false else true
          else
            if negb (less min val) then false else true
      | None => true
      end
  | None => true
  end.

Definition below_max (r : Range T) (val : T) (less : T → T → bool) : bool :=
  match Max r with
  | Some item =>
      match Value item with
      | Some max =>
          if Inclusive item then
            if less max val then false else true
          else
            if negb (less val max) then false else true
      | None => true
      end
  | None => true
  end.

Definition Contains (r : Range T) (val : T) (less : T → T → bool) : bool :=
  if above_min r val less then
    if below_max r val less then true else false
  else false.

(** [r.Min != nil && r.Min.Value != nil] *)
Definition has_value (item : option (RangeItem T)) : bool :=
  match item with
  | Some item => bool_decide (Value item ≠ None)
  | None => false
  end.

Definition IsBounded (r : Range T) : bool :=
  has_value (Min r) && has_value (Max r).

Definition IsAny (r : Range T) : bool :=
  let minUnbounded := negb (has_value (Min r)) in
  let maxUnbounded := negb (has_value (Max r)) in
  minUnbounded && maxUnbounded.

End Range.

(** [ContainsOrdered] at [int]: [a < b] on integers. *)
Definition ContainsOrdered (r : Range Z) (val : Z) : bool :=
  Contains r val (λ a b, bool_decide (a < b)).

End _range.

(** * Facts *)

(** ** Arithmetic on [int] *)

Lemma wrap_in_range z : GoInt.in_range z → GoInt.wrap z = z.
Proof.
  unfold GoInt.in_range, GoInt.min_int, GoInt.max_int, GoInt.wrap.
  intros ?. rewrite Z.mod_small; lia.
Qed.

Lemma add_in_range a b : GoInt.in_range (a + b) → GoInt.add a b = a + b.
Proof. apply wrap_in_range. Qed.

Lemma rem_nonneg a b :
  0 ≤ a → 0 < b → b ≤ GoInt.max_int →
  GoInt.rem a b = Some (a `mod` b).
Proof.
  intros Ha Hb Hmax. unfold GoInt.rem.
  destruct (decide (b = 0)) as [->|_]; [lia|].
  rewrite Z.rem_mod_nonneg by lia.
  rewrite wrap_in_range; [done|].
  pose proof (Z.mod_pos_bound a b Hb).
  unfold GoInt.in_range, GoInt.min_int, GoInt.max_int in *. lia.
Qed.

(** One turn around the ring at most. *)
Lemma mod_one_turn x L :
  0 ≤ x < 2 * L → x `mod` L = if decide (x < L) then x else x - L.
Proof.
  intros Hx. destruct (decide (x < L)).
  - apply Z.mod_small; lia.
  - symmetry. apply (Z.mod_unique_pos x L 1); lia.
Qed.

(** ** Slices *)

Section SliceFacts.
Context {T : Type} (zero : T).
Implicit Types (s : list T) (i n : Z).

Lemma len_nonneg s : 0 ≤ len s.
Proof. unfold len. lia. Qed.

Lemma make_Some n : 0 ≤ n → make zero n = Some (replicate (Z.to_nat n) zero).
Proof. intros ?. unfold make. by rewrite decide_False by lia. Qed.

Lemma len_replicate n : 0 ≤ n → len (replicate (Z.to_nat n) zero) = n.
Proof. intros ?. unfold len. rewrite length_replicate. lia. Qed.

Lemma index_lookup s i : 0 ≤ i → index s i = s !! Z.to_nat i.
Proof. intros ?. unfold index. by rewrite decide_True. Qed.

Lemma index_is_Some s i : 0 ≤ i < len s → is_Some (index s i).
Proof.
  intros ?. rewrite index_lookup by lia.
  apply lookup_lt_is_Some. unfold len in *. lia.
Qed.

Lemma store_Some s i v :
  0 ≤ i < len s → store s i v = Some (<[Z.to_nat i := v]> s).
Proof. intros ?. unfold store. by rewrite decide_True. Qed.

Lemma len_insert s (k : nat) v : len (<[k := v]> s) = len s.
Proof. unfold len. by rewrite length_insert. Qed.

End SliceFacts.

(** ** The queue, one call at a time *)

Section QueueFacts.
Context {T : Type} (zero : T).
Local Abbreviation Queue := (Queue T).
Implicit Types (q : Queue) (v x : T) (d : list T).

Local Ltac int_range :=
  unfold GoInt.in_range, GoInt.min_int, GoInt.max_int in *; lia.

(** The copying loop of [resize] fills [newData[i .. i+n)] with the
    ring read from [head + i] on, and touches nothing else. *)
Lemma resize_loop_spec q (n : nat) (i : Z) (nd : list T) :
  0 ≤ head q < len (data q) →
  2 * len (data q) ≤ GoInt.max_int →
  0 ≤ i → i + Z.of_nat n ≤ len (data q) → i + Z.of_nat n ≤ len nd →
  ∃ nd', resize_loop q n i nd = Some nd'
    ∧ length nd' = length nd
    ∧ ∀ k : nat,
        nd' !! k =
          if decide (i ≤ Z.of_nat k < i + Z.of_nat n)
          then data q !! Z.to_nat ((head q + Z.of_nat k) `mod` len (data q))
          else nd !! k.
Proof.
  intros Hh Hmax. revert i nd.
  induction n as [|n IH]; intros i nd Hi Hn Hnd.
  - exists nd. split_and!; [done..|]. intros k.
    by rewrite decide_False by lia.
  - cbn [resize_loop].
    rewrite (add_in_range (head q) i) by int_range.
    rewrite rem_nonneg by lia. cbn [mbind option_bind].
    pose proof (Z.mod_pos_bound (head q + i) (len (data q))) as Hj.
    destruct (index_is_Some (data q) ((head q + i) `mod` len (data q)))
      as [x Hx]; [lia|].
    rewrite Hx. cbn [mbind option_bind].
    rewrite store_Some by lia. cbn [mbind option_bind].
    rewrite (add_in_range i 1) by int_range.
    destruct (IH (i + 1) (<[Z.to_nat i := x]> nd)) as (nd' & -> & Hlen & Hlk);
      [lia|lia|rewrite len_insert; lia|].
    exists nd'. split_and!; [done|by rewrite Hlen, length_insert|].
    intros k. rewrite Hlk.
    destruct (decide (Z.of_nat k = i)) as [<-|Hne].
    + rewrite decide_False by lia. rewrite decide_True by lia.
      rewrite Nat2Z.id. rewrite list_lookup_insert_eq.
      * rewrite <- Hx. by rewrite index_lookup by lia.
      * unfold len in *. lia.
    + rewrite list_lookup_insert_ne by lia.
      repeat case_decide; done || lia.
Qed.

(** [resize] on a full queue: twice the room, the ring unrolled from slot
    [0] on, and zero values behind it. *)
Lemma resize_spec q :
  cs_inv q → count q = len (data q) → 2 * len (data q) ≤ GoInt.max_int →
  ∃ nd, resize zero q = Some (mkQueue (mu q) nd 0 (count q) (count q))
    ∧ len nd = Z.max (len (data q) * 2) 1
    ∧ (∀ i, 0 ≤ i < count q → nd !! Z.to_nat i = slot q i)
    ∧ (∀ k : nat, count q ≤ Z.of_nat k < len nd → nd !! k = Some zero).
Proof.
  intros [[] Hlen] Hfull Hmax. unfold resize.
  unfold GoInt.mul. rewrite wrap_in_range by int_range.
  rewrite decide_False by lia.
  rewrite make_Some by lia. cbn [mbind option_bind].
  destruct (resize_loop_spec q (Z.to_nat (count q)) 0
              (replicate (Z.to_nat (len (data q) * 2)) zero))
    as (nd & -> & Hnd & Hlk); [lia..| |].
  { rewrite len_replicate; lia. }
  assert (len nd = len (data q) * 2) as Hlennd.
  { unfold len at 1. rewrite Hnd, length_replicate. lia. }
  exists nd. split_and!.
  - done.
  - lia.
  - intros i Hi. rewrite Hlk, decide_True by lia.
    unfold slot. by rewrite Z2Nat.id by lia.
  - intros k Hk. rewrite Hlk, decide_False by lia.
    apply lookup_replicate_2. lia.
Qed.

(** *** The abstraction *)

Lemma length_contents q : length (contents zero q) = Z.to_nat (count q).
Proof. unfold contents. by rewrite length_fmap, length_seq. Qed.

Lemma contents_set_mu b q : contents zero (set_mu b q) = contents zero q.
Proof. done. Qed.

Lemma contents_empty q : count q = 0 → contents zero q = [].
Proof. unfold contents. by intros ->. Qed.

Lemma contents_ext q q' :
  count q' = count q →
  (∀ i : nat, Z.of_nat i < count q →
     slot q' (Z.of_nat i) = slot q (Z.of_nat i)) →
  contents zero q' = contents zero q.
Proof.
  intros Hc Hs. unfold contents. rewrite Hc.
  apply list_fmap_ext. intros k i Hk.
  apply lookup_seq in Hk as [-> Hk]. rewrite Hs; [done|lia].
Qed.

Lemma contents_grow q q' v :
  0 ≤ count q → count q' = count q + 1 →
  (∀ i : nat, Z.of_nat i < count q →
     slot q' (Z.of_nat i) = slot q (Z.of_nat i)) →
  slot q' (count q) = Some v →
  contents zero q' = contents zero q ++ [v].
Proof.
  intros Hc Hc' Hs Hv. unfold contents. rewrite Hc'.
  replace (Z.to_nat (count q + 1)) with (S (Z.to_nat (count q))) by lia.
  rewrite seq_S, fmap_app. f_equal.
  - apply list_fmap_ext. intros k i Hk.
    apply lookup_seq in Hk as [-> Hk]. rewrite Hs; [done|lia].
  - cbn. rewrite Z2Nat.id by lia. by rewrite Hv.
Qed.

Lemma contents_shrink q q' x :
  0 < count q → count q' = count q - 1 →
  slot q 0 = Some x →
  (∀ i : nat, Z.of_nat i < count q' →
     slot q' (Z.of_nat i) = slot q (Z.of_nat i + 1)) →
  contents zero q = x :: contents zero q'.
Proof.
  intros Hc Hc' Hx Hs. unfold contents. rewrite Hc'.
  replace (Z.to_nat (count q)) with (S (Z.to_nat (count q - 1))) by lia.
  cbn [seq fmap list_fmap]. change (Z.of_nat 0) with 0.
  rewrite Hx. cbn [default]. f_equal.
  rewrite <- fmap_S_seq, <- list_fmap_compose.
  apply list_fmap_ext. intros k i Hk.
  apply lookup_seq in Hk as [-> Hk]. cbn.
  rewrite Hs by lia. do 2 f_equal. lia.
Qed.

(** *** Critical sections *)

Lemma rep_inv_fields q q' :
  data q' = data q → head q' = head q → tail q' = tail q →
  count q' = count q → rep_inv q → rep_inv q'.
Proof. intros Hd Hh Ht Hc []. split; rewrite ?Hd, ?Hh, ?Ht, ?Hc; done. Qed.

Lemma cs_inv_set_mu b q : cs_inv q → cs_inv (set_mu b q).
Proof. intros [? ?]. split; [by apply (rep_inv_fields q)|done]. Qed.

Lemma resize_keeps q :
  cs_inv q → count q = len (data q) → 2 * len (data q) ≤ GoInt.max_int →
  ∃ q1, resize zero q = Some q1
    ∧ cs_inv q1 ∧ contents zero q1 = contents zero q
    ∧ count q1 = count q ∧ len (data q1) = 2 * len (data q)
    ∧ mu q1 = mu q.
Proof.
  intros Hinv Hfull Hmax.
  destruct (resize_spec q Hinv Hfull Hmax) as (nd & -> & Hlen & Hlk & _).
  destruct Hinv as [[] ?].
  assert (len nd = 2 * len (data q)) as Hlen' by lia.
  eexists. split; [done|]. split_and!; cbn; try done.
  - split; [split; cbn; try lia|cbn; lia].
    rewrite Z.add_0_l, Z.mod_small; lia.
  - apply contents_ext; [done|]. intros i Hi. cbn in Hi.
    rewrite <- Hlk by lia. unfold slot. cbn.
    rewrite Z.add_0_l, Z.mod_small by lia. done.
Qed.

Lemma enqueue_cs_room v q :
  cs_inv q → count q < len (data q) →
  ∃ q', enqueue_cs zero v q = Some (tt, q')
    ∧ cs_inv q' ∧ contents zero q' = contents zero q ++ [v]
    ∧ count q' = count q + 1 ∧ len (data q') = len (data q)
    ∧ mu q' = mu q.
Proof.
  intros [[] ?] Hroom. unfold enqueue_cs.
  rewrite decide_False by lia. cbn [mbind option_bind].
  rewrite store_Some by lia. cbn [mbind option_bind].
  cbn [set_data data tail count]. rewrite len_insert.
  rewrite (add_in_range (tail q) 1) by int_range.
  rewrite rem_nonneg by lia. cbn [mbind option_bind].
  cbn [set_tail set_data count].
  rewrite (add_in_range (count q) 1) by int_range.
  eexists. split; [done|].
  pose proof (Z.mod_pos_bound (tail q + 1) (len (data q))).
  split_and!; cbn; try done.
  - split; [split; cbn; rewrite ?len_insert; try lia|cbn; by rewrite len_insert].
    rewrite inv_span0, Zplus_mod_idemp_l. f_equal. lia.
  - apply contents_grow; cbn; [lia|done| |].
    + intros i Hi. unfold slot. cbn. rewrite len_insert.
      apply list_lookup_insert_ne. rewrite inv_span0.
      rewrite !mod_one_turn by lia. repeat case_decide; lia.
    + unfold slot. cbn. rewrite len_insert, <- inv_span0.
      apply list_lookup_insert_eq. unfold len in *. lia.
  - by rewrite len_insert.
Qed.

Lemma enqueue_cs_spec v q :
  cs_inv q → can_grow q →
  ∃ q', enqueue_cs zero v q = Some (tt, q')
    ∧ cs_inv q' ∧ contents zero q' = contents zero q ++ [v]
    ∧ count q' = count q + 1 ∧ len (data q) ≤ len (data q')
    ∧ mu q' = mu q.
Proof.
  intros Hinv Hgrow.
  destruct (decide (count q = len (data q))) as [Hfull|Hroom].
  - destruct Hgrow as [?|Hmax]; [lia|].
    destruct (resize_keeps q Hinv Hfull Hmax)
      as (q1 & Hr & Hinv1 & Hc1 & Hn1 & Hl1 & Hm1).
    destruct (enqueue_cs_room v q1) as (q' & He & ? & Hc & Hn & Hl & Hm);
      [done|destruct Hinv as [[] ?]; lia|].
    exists q'. split.
    + unfold enqueue_cs in *. rewrite decide_True by done.
      rewrite Hr. rewrite decide_False in He; [done|].
      destruct Hinv as [[] ?]; lia.
    + split_and!; try done; try congruence.
      destruct Hinv as [[] ?]; lia.
  - destruct (enqueue_cs_room v q) as (q' & He & ? & Hc & Hn & Hl & Hm);
      [done|destruct Hinv as [[] ?]; lia|].
    exists q'. split_and!; try done. lia.
Qed.

Lemma dequeue_cs_empty q :
  count q = 0 → dequeue_cs zero q = Some ((zero, false), q).
Proof. intros ?. unfold dequeue_cs. by rewrite decide_True. Qed.

Lemma dequeue_cs_spec q :
  cs_inv q → 0 < count q →
  ∃ x q', dequeue_cs zero q = Some ((x, true), q')
    ∧ data q !! Z.to_nat (head q) = Some x
    ∧ contents zero q = x :: contents zero q'
    ∧ cs_inv q' ∧ count q' = count q - 1
    ∧ len (data q') = len (data q) ∧ mu q' = mu q.
Proof.
  intros [[] ?] Hpos. unfold dequeue_cs.
  rewrite decide_False by lia.
  destruct (index_is_Some (data q) (head q)) as [x Hx]; [lia|].
  rewrite Hx. cbn [mbind option_bind].
  rewrite index_lookup in Hx by lia.
  rewrite store_Some by lia. cbn [mbind option_bind].
  cbn [set_data data head count]. rewrite len_insert.
  rewrite (add_in_range (head q) 1) by int_range.
  rewrite rem_nonneg by lia. cbn [mbind option_bind].
  cbn [set_head set_data count].
  unfold GoInt.sub. rewrite wrap_in_range by int_range.
  exists x. eexists. split; [done|].
  pose proof (Z.mod_pos_bound (head q + 1) (len (data q))).
  split_and!; cbn; try done.
  - apply (contents_shrink _ _ x); cbn; [lia|done| |].
    + unfold slot. by rewrite Z.add_0_r, Z.mod_small by lia.
    + intros i Hi. unfold slot. cbn. rewrite len_insert.
      rewrite Zplus_mod_idemp_l.
      replace (head q + 1 + Z.of_nat i) with (head q + (Z.of_nat i + 1))
        by lia.
      apply list_lookup_insert_ne.
      rewrite !mod_one_turn by lia. repeat case_decide; lia.
  - split; [split; cbn; rewrite ?len_insert; try lia|cbn; by rewrite len_insert].
    rewrite inv_span0, Zplus_mod_idemp_l. f_equal. lia.
  - by rewrite len_insert.
Qed.

Lemma peek_cs_spec q :
  cs_inv q →
  ∃ r, peek_cs zero q = Some (r, q)
    ∧ (count q = 0 → r = (zero, false))
    ∧ (0 < count q →
         ∃ x rest, data q !! Z.to_nat (head q) = Some x
           ∧ r = (x, true) ∧ contents zero q = x :: rest).
Proof.
  intros Hinv. unfold peek_cs.
  destruct (decide (count q = 0)) as [Hc|Hc].
  - eexists. split_and!; [done|done|lia].
  - assert (0 < count q) as Hpos by (destruct Hinv as [[] ?]; lia).
    destruct (dequeue_cs_spec q Hinv Hpos) as (x & q' & _ & Hx & Hcs & _).
    rewrite index_lookup by (destruct Hinv as [[] ?]; lia).
    rewrite Hx. cbn. eexists. split_and!; [done|done|].
    intros _. by exists x, (contents zero q').
Qed.

Lemma clear_loop_spec (n : nat) (i : Z) d :
  0 ≤ i → i + Z.of_nat n ≤ len d → len d ≤ GoInt.max_int →
  ∃ d', clear_loop zero n i d = Some d' ∧ len d' = len d
    ∧ ∀ k : nat,
        d' !! k = if decide (i ≤ Z.of_nat k < i + Z.of_nat n)
                  then Some zero else d !! k.
Proof.
  revert i d. induction n as [|n IH]; intros i d Hi Hn Hmax.
  - exists d. split_and!; [done..|]. intros k.
    by rewrite decide_False by lia.
  - cbn [clear_loop]. rewrite store_Some by lia. cbn [mbind option_bind].
    rewrite (add_in_range i 1) by int_range.
    destruct (IH (i + 1) (<[Z.to_nat i := zero]> d))
      as (d' & -> & Hlen & Hlk); [lia|rewrite len_insert; lia..|].
    exists d'. split_and!; [done|by rewrite Hlen, len_insert|].
    intros k. rewrite Hlk.
    destruct (decide (Z.of_nat k = i)) as [<-|Hne].
    + rewrite decide_False by lia. rewrite decide_True by lia.
      rewrite Nat2Z.id. apply list_lookup_insert_eq. unfold len in *. lia.
    + rewrite list_lookup_insert_ne by lia.
      repeat case_decide; done || lia.
Qed.

Lemma clear_cs_spec q :
  cs_inv q →
  ∃ q', clear_cs zero q = Some (tt, q')
    ∧ cs_inv q' ∧ contents zero q' = []
    ∧ count q' = 0 ∧ len (data q') = len (data q) ∧ mu q' = mu q
    ∧ ∀ k : nat, Z.of_nat k < len (data q) → data q' !! k = Some zero.
Proof.
  intros [[] ?]. unfold clear_cs.
  destruct (clear_loop_spec (Z.to_nat (len (data q))) 0 (data q))
    as (d' & -> & Hlen & Hlk); [lia..|].
  eexists. split; [done|]. split_and!; cbn; try done.
  - split; [split; cbn; rewrite ?Hlen; try lia|cbn; by rewrite Hlen].
    by rewrite Z.mod_0_l by lia.
  - intros k Hk. rewrite Hlk. by rewrite decide_True by lia.
Qed.

(** [resize] on a buffer too long to double: the product wraps to a
    negative length and [make] panics. *)
Lemma enqueue_cs_overflow v q :
  cs_inv q → ¬ can_grow q → enqueue_cs zero v q = None.
Proof.
  intros [[] ?] Hgrow. unfold can_grow in Hgrow.
  unfold enqueue_cs. rewrite decide_True by lia.
  assert (GoInt.mul (len (data q)) 2 = len (data q) * 2 - 2 ^ 64) as Hw.
  { unfold GoInt.mul, GoInt.wrap.
    rewrite <- (Z.mod_unique_pos _ _ 1 (len (data q) * 2 + 2 ^ 63 - 2 ^ 64));
      int_range. }
  unfold resize. rewrite Hw.
  destruct (decide (len (data q) * 2 - 2 ^ 64 = 0)); [int_range|].
  unfold make. by rewrite decide_True by int_range.
Qed.

(** *** Whole calls *)

Lemma locked_Some {R} (body : Queue → option (R * Queue)) q r q' :
  mu q = false → body (set_mu true q) = Some (r, q') →
  locked body q = Some (r, set_mu false q').
Proof. intros Hmu Hb. unfold locked, Lock. rewrite Hmu. cbn. by rewrite Hb. Qed.

Lemma locked_None {R} (body : Queue → option (R * Queue)) q :
  body (set_mu true q) = None → locked body q = None.
Proof.
  intros Hb. unfold locked, Lock.
  destruct (mu q); [done|]. cbn. by rewrite Hb.
Qed.

Lemma set_mu_same q b : mu q = b → set_mu b q = q.
Proof. intros <-. by destruct q. Qed.

Lemma set_mu_twice q b b' : set_mu b (set_mu b' q) = set_mu b q.
Proof. done. Qed.

(** Every critical section that the buffer can serve returns, simulates
    the list queue, and keeps the invariant, the mutex and the room. *)
Lemma critical_refines c q :
  cs_inv q → admits c q →
  ∃ q', critical zero c q = Some ((fifo_step zero c (contents zero q)).1, q')
    ∧ contents zero q' = (fifo_step zero c (contents zero q)).2
    ∧ cs_inv q' ∧ len (data q) ≤ len (data q') ∧ mu q' = mu q.
Proof.
  intros Hinv Hadm. destruct c as [v| | | | |]; cbn [critical fifo_step].
  - destruct (enqueue_cs_spec v q Hinv Hadm)
      as (q' & -> & ? & ? & ? & ? & ?).
    by exists q'.
  - destruct (decide (count q = 0)) as [Hc|Hc].
    + rewrite dequeue_cs_empty, (contents_empty q Hc) by done.
      exists q. split_and!; first [done|lia|by apply contents_empty].
    + destruct (dequeue_cs_spec q Hinv)
        as (x & q' & -> & _ & -> & ? & ? & ? & ?);
        [destruct Hinv as [[] ?]; lia|].
      exists q'. split_and!; try done. lia.
  - destruct (peek_cs_spec q Hinv) as (r & -> & Hz & Hp).
    exists q. destruct (decide (count q = 0)) as [Hc|Hc].
    + rewrite (Hz Hc), (contents_empty q Hc).
      split_and!; first [done|lia|by apply contents_empty].
    + destruct Hp as (x & rest & _ & -> & ->);
        [destruct Hinv as [[] ?]; lia|].
      split_and!; done || lia.
  - exists q. split_and!; try done; try lia. cbn. do 3 f_equal.
    rewrite length_contents. destruct Hinv as [[] ?]. lia.
  - exists q. split_and!; try done; try lia. cbn. do 3 f_equal.
    pose proof (length_contents q) as Hl. destruct Hinv as [[] ?].
    destruct (contents zero q); cbn in Hl.
    + apply bool_decide_eq_true. lia.
    + apply bool_decide_eq_false. lia.
  - destruct (clear_cs_spec q Hinv) as (q' & -> & ? & ? & ? & ? & ? & _).
    exists q'. split_and!; try done. lia.
Qed.

Lemma critical_overflow c q :
  cs_inv q → ¬ admits c q → critical zero c q = None.
Proof.
  intros Hinv Hadm. destruct c; cbn in Hadm; try tauto.
  cbn. by rewrite enqueue_cs_overflow.
Qed.

Lemma exec_locked c q :
  exec zero c q = locked (critical zero c) q.
Proof.
  destruct c; cbn [exec critical];
    unfold Enqueue, Dequeue, Peek, Len, IsEmpty, Clear, locked;
    destruct (Lock q) as [q1|]; cbn; try done.
  all: match goal with |- context [mbind _ ?e] =>
         destruct e as [[[] ?]|] end; done.
Qed.

Lemma exec_refines c q :
  wf q → admits c q →
  ∃ q', exec zero c q = Some ((fifo_step zero c (contents zero q)).1, q')
    ∧ contents zero q' = (fifo_step zero c (contents zero q)).2
    ∧ wf q' ∧ len (data q) ≤ len (data q').
Proof.
  intros [Hinv Hmu] Hadm.
  destruct (critical_refines c (set_mu true q))
    as (q' & Hc & Hcont & Hinv' & Hlen & Hmu');
    [by apply cs_inv_set_mu|by destruct c|].
  exists (set_mu false q'). rewrite exec_locked.
  split_and!.
  - by apply locked_Some.
  - done.
  - split; [by apply cs_inv_set_mu|done].
  - done.
Qed.

Lemma exec_overflow c q : wf q → ¬ admits c q → exec zero c q = None.
Proof.
  intros [Hinv Hmu] Hadm. rewrite exec_locked. apply locked_None.
  apply critical_overflow; [by apply cs_inv_set_mu|by destruct c].
Qed.

(** What a call that returned has done. *)
Lemma exec_Some c q r q' :
  wf q → exec zero c q = Some (r, q') →
  admits c q
  ∧ r = (fifo_step zero c (contents zero q)).1
  ∧ contents zero q' = (fifo_step zero c (contents zero q)).2
  ∧ wf q' ∧ len (data q) ≤ len (data q').
Proof.
  intros Hwf He.
  assert (Decision (admits c q)) as [Hadm|Hadm].
  { destruct c; unfold admits, can_grow; apply _. }
  - destruct (exec_refines c q Hwf Hadm) as (q2 & He2 & ? & ? & ?).
    rewrite He in He2. by simplify_eq.
  - by rewrite exec_overflow in He.
Qed.

Lemma Enqueue_spec v q :
  wf q → can_grow q →
  ∃ q', Enqueue zero v q = Some (tt, q')
    ∧ contents zero q' = contents zero q ++ [v]
    ∧ wf q' ∧ len (data q) ≤ len (data q').
Proof.
  intros Hwf Hgrow.
  destruct (exec_refines (CEnqueue v) q Hwf Hgrow) as (q' & He & ?).
  exists q'. split; [|done]. cbn in He.
  destruct (Enqueue zero v q) as [[[] ?]|]; by simplify_eq/=.
Qed.

Lemma Dequeue_spec q :
  wf q →
  ∃ q', Dequeue zero q
        = Some (match contents zero q with
                | [] => (zero, false)
                | x :: _ => (x, true)
                end, q')
    ∧ contents zero q' = drop 1 (contents zero q)
    ∧ wf q' ∧ len (data q) ≤ len (data q').
Proof.
  intros Hwf.
  destruct (exec_refines CDequeue q Hwf I) as (q' & He & Hc & ?).
  exists q'. cbn in He, Hc.
  destruct (Dequeue zero q) as [[[x b] ?]|]; [|done].
  unfold elem_ret in He.
  destruct (contents zero q); simplify_eq/=; by rewrite ?drop_0.
Qed.

(** *** Constructors *)

Lemma New_spec :
  ∃ q, New zero = Some q ∧ wf q ∧ count q = 0 ∧ len (data q) = 2.
Proof.
  eexists. split; [done|]. by split_and!.
Qed.

Lemma NewWithCapacity_spec capacity :
  GoInt.in_range capacity →
  ∃ q, NewWithCapacity zero capacity = Some q ∧ wf q ∧ count q = 0
    ∧ len (data q) = Z.max capacity 1.
Proof.
  intros Hr. unfold NewWithCapacity.
  set (c := if decide (capacity < 1) then 1 else capacity).
  assert (c = Z.max capacity 1) as Hc by (unfold c; case_decide; lia).
  rewrite make_Some by lia. cbn.
  eexists. split; [done|].
  assert (len (replicate (Z.to_nat c) zero) = c) as Hl
    by (apply len_replicate; lia).
  split_and!; cbn; try done; [|lia].
  split; [split; [split; cbn; rewrite ?Hl; try lia|cbn; rewrite Hl]|done].
  - by rewrite Z.mod_0_l by lia.
  - int_range.
Qed.

Lemma fresh_wf q : fresh zero q → wf q ∧ count q = 0.
Proof.
  intros [Hn|(c & Hr & Hn)].
  - destruct New_spec as (q' & Hq & ? & ? & _). by simplify_eq.
  - destruct (NewWithCapacity_spec c Hr) as (q' & Hq & ? & ? & _).
    by simplify_eq.
Qed.

Lemma reachable_wf q : reachable zero q → wf q.
Proof.
  induction 1 as [q Hn|c q Hr Hn|c q r q' _ IH He].
  - apply fresh_wf. by left.
  - apply fresh_wf. right. by exists c.
  - by apply exec_Some in He as (_ & _ & _ & ? & _).
Qed.

(** *** Runs *)

Lemma enqueue_all_spec vs q :
  wf q → 2 * (count q + Z.of_nat (length vs)) ≤ GoInt.max_int →
  ∃ q', enqueue_all zero vs q = Some q'
    ∧ wf q' ∧ contents zero q' = contents zero q ++ vs.
Proof.
  revert q. induction vs as [|v vs IH]; intros q Hwf Hfit.
  - exists q. by rewrite app_nil_r.
  - cbn [enqueue_all].
    destruct (Enqueue_spec v q Hwf) as (q1 & -> & Hc1 & Hwf1 & _).
    { destruct Hwf as [[[] ?] ?]. unfold can_grow. cbn in Hfit. lia. }
    cbn [mbind option_bind].
    destruct (IH q1 Hwf1) as (q' & -> & ? & Hc').
    { pose proof (f_equal length Hc1) as Hl.
      rewrite length_app, !length_contents in Hl.
      destruct Hwf as [[[] ?] ?], Hwf1 as [[[] ?] ?].
      cbn in Hfit, Hl. lia. }
    exists q'. split_and!; [done..|].
    by rewrite Hc', Hc1, <- app_assoc.
Qed.

Lemma dequeue_n_spec (n : nat) q :
  wf q → (n ≤ length (contents zero q))%nat →
  ∃ q', dequeue_n zero n q
        = Some ((λ v, (v, true)) <$> take n (contents zero q), q')
    ∧ wf q' ∧ contents zero q' = drop n (contents zero q).
Proof.
  revert q. induction n as [|n IH]; intros q Hwf Hn.
  - exists q. by rewrite take_0, drop_0.
  - cbn [dequeue_n].
    destruct (Dequeue_spec q Hwf) as (q1 & -> & Hc1 & Hwf1 & _).
    cbn [mbind option_bind].
    destruct (contents zero q) as [|x l] eqn:Hl; [cbn in Hn; lia|].
    cbn in Hc1. rewrite drop_0 in Hc1.
    destruct (IH q1 Hwf1) as (q' & -> & ? & Hc').
    { rewrite Hc1. cbn in Hn. lia. }
    exists q'. by rewrite Hc1 in *.
Qed.

(** ** The properties of the specification: queue *)

(** C1 (FIFO order).  On a queue made by [New] or [NewWithCapacity], [N]
    calls of [Enqueue] followed by [N] calls of [Dequeue] all return, every
    [Dequeue] reports [found = true], and the dequeued values are the
    enqueued values in the same order.  The values need not be distinct.
    The run stays clear of the one way [Enqueue] can fail, a buffer too
    long to double: [2 * N] fits an [int], as it does whenever [N]
    distinct values fit the address space. *)
Theorem fifo_order (vs : list T) (q0 : Queue) :
  fresh zero q0 →
  2 * Z.of_nat (length vs) ≤ GoInt.max_int →
  ∃ q q',
    enqueue_all zero vs q0 = Some q
    ∧ dequeue_n zero (length vs) q = Some ((λ v, (v, true)) <$> vs, q')
    ∧ count q' = 0.
Proof.
  intros Hfresh Hfit.
  apply fresh_wf in Hfresh as [Hwf Hc0].
  destruct (enqueue_all_spec vs q0 Hwf) as (q & Hq & Hwfq & Hcont); [lia|].
  rewrite (contents_empty q0 Hc0) in Hcont. cbn in Hcont.
  destruct (dequeue_n_spec (length vs) q Hwfq) as (q' & Hq' & Hwf' & Hcont').
  { by rewrite Hcont. }
  rewrite Hcont, firstn_all in Hq'. rewrite Hcont, drop_all in Hcont'.
  exists q, q'. split_and!; [done..|].
  pose proof (length_contents q') as Hl. rewrite Hcont' in Hl. cbn in Hl.
  destruct Hwf' as [[[] ?] ?]. lia.
Qed.

(** C2 (resize).  [resize] on a full queue whose buffer can be doubled
    returns a queue of capacity [max (capacity * 2) 1] where slot [i] of
    the new buffer is slot [(head + i) mod capacity] of the old one for
    every [i] below [count], [head] is [0] and [tail] is [count]; the
    logical contents are unchanged, and [Enqueue] goes on to write the
    pending element into that queue. *)
Theorem resize_linearizes (q : Queue) :
  cs_inv q →
  count q = len (data q) →
  2 * len (data q) ≤ GoInt.max_int →
  ∃ q', resize zero q = Some q'
    ∧ len (data q') = Z.max (len (data q) * 2) 1
    ∧ (∀ i, 0 ≤ i < count q →
         data q' !! Z.to_nat i
         = data q !! Z.to_nat ((head q + i) `mod` len (data q)))
    ∧ head q' = 0 ∧ tail q' = count q ∧ count q' = count q
    ∧ contents zero q' = contents zero q
    ∧ ∀ v, enqueue_cs zero v q = enqueue_cs zero v q'.
Proof.
  intros Hinv Hfull Hmax.
  destruct (resize_spec q Hinv Hfull Hmax) as (nd & Hr & Hlen & Hlk & _).
  destruct (resize_keeps q Hinv Hfull Hmax) as (q1 & Hr1 & _ & Hc & _).
  rewrite Hr in Hr1. injection Hr1 as <-.
  eexists. split; [exact Hr|]. split_and!; try done.
  intros v. unfold enqueue_cs at 1. rewrite decide_True by done.
  rewrite Hr. unfold enqueue_cs. rewrite decide_False; [done|].
  cbn. destruct Hinv as [[] ?]. lia.
Qed.

(** C3 (representation invariant).  Every state reachable from [New] or
    [NewWithCapacity] through calls of [Enqueue], [Dequeue], [Peek],
    [Len], [IsEmpty] and [Clear] has a buffer of at least one slot, [count]
    between [0] and the capacity, [head] and [tail] inside the buffer and
    [tail = (head + count) mod capacity]; no call from such a state makes
    the capacity smaller; and every call returns, but for an [Enqueue]
    that finds the buffer full and too long to double. *)
Theorem reachable_rep_inv (q : Queue) :
  reachable zero q →
  rep_inv q
  ∧ (∀ c r q', exec zero c q = Some (r, q') →
       len (data q) ≤ len (data q'))
  ∧ (∀ c, admits c q → is_Some (exec zero c q)).
Proof.
  intros Hwf%reachable_wf. split_and!.
  - by destruct Hwf as [[? ?] ?].
  - intros c r q' He. by apply exec_Some in He as (_ & _ & _ & _ & ?).
  - intros c Hadm. by destruct (exec_refines c q Hwf Hadm) as (q' & -> & _).
Qed.

(** C8 (Peek does not mutate).  On every reachable state [Peek] returns and
    leaves the queue as it was: buffer, [head], [tail] and [count].  On an
    empty queue it returns the zero value and [false], as [Dequeue] does; on
    a non-empty one it returns [data[head]] and [true]. *)
Theorem Peek_frame (q : Queue) :
  reachable zero q →
  ∃ r, Peek zero q = Some (r, q)
    ∧ (count q = 0 →
         r = (zero, false) ∧ fst <$> Dequeue zero q = Some (zero, false))
    ∧ (count q ≠ 0 →
         ∃ x, index (data q) (head q) = Some x ∧ r = (x, true)).
Proof.
  intros [Hinv Hmu]%reachable_wf.
  destruct (peek_cs_spec (set_mu true q)) as (r & Hp & Hz & Hnz);
    [by apply cs_inv_set_mu|].
  exists r. split_and!.
  - unfold Peek. erewrite locked_Some; [|done..].
    by rewrite set_mu_twice, set_mu_same.
  - intros Hc. split; [by apply Hz|].
    destruct (Dequeue_spec q) as (q' & -> & _); [done|].
    by rewrite (contents_empty q Hc).
  - intros Hc. destruct Hnz as (x & rest & Hx & -> & _).
    { cbn. destruct Hinv as [[] ?]. lia. }
    exists x. split; [|done]. cbn in Hx.
    rewrite index_lookup; [done|]. destruct Hinv as [[] ?]. lia.
Qed.

End QueueFacts.

(** C4 (wrap-around).  With capacity 3: [Enqueue(1)], [Enqueue(2)], then
    [Dequeue] returns [(1, true)].  After [Enqueue(3)] and [Enqueue(4)]
    the queue is full: three elements in a buffer of three slots, wrapped
    around its end, with [head] and [tail] both [1].  [Enqueue(5)] then
    resizes: the buffer has six slots and holds the four elements from
    slot [0] on.  Four calls of [Dequeue] return 2, 3, 4 and 5 in that
    order, each with [true]. *)
Theorem wrap_around_correct :
  let full := mkQueue false [4; 2; 3] 1 1 3 in
  let grown := mkQueue false [2; 3; 4; 5; 0; 0] 0 4 4 in
  wrap_around_trace
  = Some ((1, true), full, grown,
          [(2, true); (3, true); (4, true); (5, true)])
  ∧ count full = len (data full)
  ∧ len (data grown) = 2 * len (data full)
  ∧ resize 0 (set_mu true full)
    = Some (mkQueue true [2; 3; 4; 0; 0; 0] 0 3 3).
Proof.
  cbn zeta. split_and!.
  - vm_compute. reflexivity.
  - reflexivity.
  - reflexivity.
  - vm_compute. reflexivity.
Qed.

Lemma fifo_order_witness :
  ∃ q q',
    enqueue_all 0 [7; 8; 9] (mkQueue false [0; 0] 0 0 0) = Some q
    ∧ dequeue_n 0 3 q = Some ([(7, true); (8, true); (9, true)], q')
    ∧ count q' = 0.
Proof.
  apply (fifo_order 0 [7; 8; 9] (mkQueue false [0; 0] 0 0 0)).
  - left. reflexivity.
  - vm_compute. discriminate.
Defined.

Lemma resize_linearizes_witness :
  ∃ q', resize 0 (mkQueue true [4; 2; 3] 1 1 3) = Some q'
    ∧ len (data q') = 6
    ∧ (∀ i, 0 ≤ i < 3 →
         data q' !! Z.to_nat i = [4; 2; 3] !! Z.to_nat ((1 + i) `mod` 3))
    ∧ head q' = 0 ∧ tail q' = 3 ∧ count q' = 3
    ∧ contents 0 q' = [2; 3; 4]
    ∧ ∀ v, enqueue_cs 0 v (mkQueue true [4; 2; 3] 1 1 3)
           = enqueue_cs 0 v q'.
Proof.
  apply (resize_linearizes 0 (mkQueue true [4; 2; 3] 1 1 3)).
  - split; [split; unfold len; cbn; first [lia|reflexivity]
           |vm_compute; discriminate].
  - reflexivity.
  - vm_compute. discriminate.
Defined.

(** The queue after [New], three calls of [Enqueue], the third of which
    resizes, and a [Dequeue]. *)
Lemma reachable_rep_inv_witness :
  rep_inv (mkQueue false [0; 2; 3; 0] 1 3 2)
  ∧ (∀ c r q', exec 0 c (mkQueue false [0; 2; 3; 0] 1 3 2) = Some (r, q') →
       4 ≤ len (data q'))
  ∧ (∀ c, admits c (mkQueue false [0; 2; 3; 0] 1 3 2) →
       is_Some (exec 0 c (mkQueue false [0; 2; 3; 0] 1 3 2))).
Proof.
  apply (reachable_rep_inv 0 (mkQueue false [0; 2; 3; 0] 1 3 2)).
  apply (reachable_call 0 CDequeue (mkQueue false [1; 2; 3; 0] 0 3 3)
           (RElem 1 true)).
  - apply (reachable_call 0 (CEnqueue 3) (mkQueue false [1; 2] 0 0 2) RUnit).
    + apply (reachable_call 0 (CEnqueue 2) (mkQueue false [1; 0] 0 1 1)
               RUnit).
      * apply (reachable_call 0 (CEnqueue 1) (mkQueue false [0; 0] 0 0 0)
                 RUnit).
        -- apply reachable_New. reflexivity.
        -- reflexivity.
      * reflexivity.
    + reflexivity.
  - reflexivity.
Defined.

Lemma Peek_frame_witness :
  ∃ r, Peek 0 (mkQueue false [5; 0] 0 1 1)
       = Some (r, mkQueue false [5; 0] 0 1 1)
    ∧ (1 = 0 → r = (0, false)
         ∧ fst <$> Dequeue 0 (mkQueue false [5; 0] 0 1 1) = Some (0, false))
    ∧ (1 ≠ 0 → ∃ x, index [5; 0] 0 = Some x ∧ r = (x, true)).
Proof.
  apply (Peek_frame 0 (mkQueue false [5; 0] 0 1 1)).
  apply (reachable_call 0 (CEnqueue 5) (mkQueue false [0; 0] 0 0 0) RUnit).
  - apply reachable_New. reflexivity.
  - reflexivity.
Defined.

(** ** The properties of the specification: Optional *)

Section OptionalFacts.
Context {T : Type} (TrimSpace : list byte → list byte) `{JSON T}.
Implicit Types (o : Optional T) (data : list byte).

Lemma UnmarshalJSON_null o data :
  TrimSpace data = null_literal →
  UnmarshalJSON TrimSpace o data = (Some_nil, None).
Proof. intros Hd. unfold UnmarshalJSON. by rewrite decide_True. Qed.

Lemma UnmarshalJSON_Err o data err :
  TrimSpace data ≠ null_literal →
  Unmarshal (TrimSpace data) = Err err →
  UnmarshalJSON TrimSpace o data = (o, Some (Errorf_w err)).
Proof.
  intros Hd He. unfold UnmarshalJSON. rewrite decide_False by done.
  by rewrite He.
Qed.

Lemma UnmarshalJSON_Ok o data v :
  TrimSpace data ≠ null_literal →
  Unmarshal (TrimSpace data) = Ok v →
  UnmarshalJSON TrimSpace o data = (Some_ v, None).
Proof.
  intros Hd Hv. unfold UnmarshalJSON. rewrite decide_False by done.
  by rewrite Hv.
Qed.

(** C5, amended (round trip).  Let [v] be a value whose encoding [b] is
    not [null] once trimmed and which [encoding/json] reads back from it.
    Then [UnmarshalJSON] on what [MarshalJSON] gives for [Some(v)] yields
    [Some(v)]; on what it gives for [Some(nil)], the bytes [null], it
    yields [Some(nil)]; and a field holding [None()], encoded under
    [omitzero] and decoded, is [None()] again. *)
Theorem roundtrip (v : T) (b : list byte) o :
  Marshal v = Ok b →
  TrimSpace b ≠ null_literal →
  Unmarshal (TrimSpace b) = Ok v →
  TrimSpace null_literal = null_literal →
  (MarshalJSON (Some_ v) = Ok b
   ∧ UnmarshalJSON TrimSpace o b = (Some_ v, None))
  ∧ (MarshalJSON (Some_nil : Optional T) = Ok null_literal
     ∧ UnmarshalJSON TrimSpace o null_literal = (Some_nil, None))
  ∧ (marshal_field true (None_ : Optional T) = Ok None
     ∧ unmarshal_field TrimSpace None (None_ : Optional T) = (None_, None)).
Proof.
  intros Hb Hnull Hv Htrim. split_and!; try done.
  - by apply UnmarshalJSON_Ok.
  - by apply UnmarshalJSON_null.
Qed.

(** C6 (UnmarshalJSON, case by case).  A payload that is [null] once
    trimmed gives [Some(nil)], [nonEmpty] set and a [nil] pointer, and no
    error.  Any other payload is parsed as a [T]: when that fails the call
    returns an error that wraps the cause, and when it succeeds the
    receiver is [Some] of the parsed value and there is no error. *)
Theorem UnmarshalJSON_cases o data :
  (TrimSpace data = null_literal →
     ∃ o', UnmarshalJSON TrimSpace o data = (o', None)
       ∧ nonEmpty o' = true ∧ value o' = None ∧ IsNull o' = true)
  ∧ (TrimSpace data ≠ null_literal →
       (∀ err, Unmarshal (TrimSpace data) = Err err →
          ∃ e, (UnmarshalJSON TrimSpace o data).2 = Some e
            ∧ Unwrap e = err
            ∧ msg e = "cannot unmarshal Optional: " +:+ err_text err)
       ∧ (∀ v, Unmarshal (TrimSpace data) = Ok v →
            ∃ o', UnmarshalJSON TrimSpace o data = (o', None)
              ∧ nonEmpty o' = true ∧ value o' = Some v
              ∧ IsNotNull o' = true)).
Proof.
  split; [|intros Hd; split].
  - intros Hd. exists Some_nil. by rewrite UnmarshalJSON_null.
  - intros err He. exists (Errorf_w err).
    by rewrite (UnmarshalJSON_Err _ _ err).
  - intros v Hv. exists (Some_ v). by rewrite (UnmarshalJSON_Ok _ _ v).
Qed.

(** C10 (atomic on failure).  When the parse of the payload into [T]
    fails, [UnmarshalJSON] returns an error and the receiver is as it was:
    the same [nonEmpty] and the same pointer. *)
Theorem UnmarshalJSON_atomic o data err :
  TrimSpace data ≠ null_literal →
  Unmarshal (TrimSpace data) = Err err →
  ∃ o' e, UnmarshalJSON TrimSpace o data = (o', Some e)
    ∧ o' = o ∧ nonEmpty o' = nonEmpty o ∧ value o' = value o.
Proof.
  intros Hd He. exists o, (Errorf_w err).
  by rewrite (UnmarshalJSON_Err _ _ err).
Qed.

End OptionalFacts.

(** C7 (one state at a time).  Whatever the flag and the pointer, the zero
    [Optional] included, exactly one of [IsNone], [IsNull] and [IsNotNull]
    holds. *)
Theorem state_exclusive {T : Type} (o : Optional T) :
  (IsNone o = true ∧ IsNull o = false ∧ IsNotNull o = false)
  ∨ (IsNone o = false ∧ IsNull o = true ∧ IsNotNull o = false)
  ∨ (IsNone o = false ∧ IsNull o = false ∧ IsNotNull o = true).
Proof.
  destruct o as [[v|] []]; vm_compute; intuition congruence.
Qed.

(** C5 as the specification has it fails at [*bool]: [Some] of a [nil]
    pointer is encoded as [null], and [null] is decoded as [Some(nil)],
    which is another state. *)
Lemma roundtrip_nil_pointer :
  MarshalJSON (Some_ (None : option bool)) = Ok null_literal
  ∧ UnmarshalJSON trim_ascii (None_ : Optional (option bool)) null_literal
    = (Some_nil, None)
  ∧ (Some_nil : Optional (option bool)) ≠ Some_ None
  ∧ IsNotNull (Some_ (None : option bool)) = true
  ∧ IsNotNull (Some_nil : Optional (option bool)) = false.
Proof. split_and!; [reflexivity|reflexivity|discriminate|reflexivity..]. Qed.

Lemma roundtrip_witness :
  (MarshalJSON (Some_ true) = Ok (lit "true")
   ∧ UnmarshalJSON trim_ascii None_ (lit "true") = (Some_ true, None))
  ∧ (MarshalJSON (Some_nil : Optional bool) = Ok null_literal
     ∧ UnmarshalJSON trim_ascii (None_ : Optional bool) null_literal
       = (Some_nil, None))
  ∧ (marshal_field true (None_ : Optional bool) = Ok None
     ∧ unmarshal_field trim_ascii None (None_ : Optional bool)
       = (None_, None)).
Proof.
  apply (roundtrip trim_ascii true (lit "true") None_).
  - reflexivity.
  - vm_compute. discriminate.
  - reflexivity.
  - reflexivity.
Defined.

Lemma UnmarshalJSON_atomic_witness :
  ∃ o' e, UnmarshalJSON trim_ascii (Some_ true) (lit " tru ") = (o', Some e)
    ∧ o' = Some_ true ∧ nonEmpty o' = true ∧ value o' = Some true.
Proof.
  eapply (UnmarshalJSON_atomic trim_ascii (Some_ true) (lit " tru ")).
  - vm_compute. discriminate.
  - reflexivity.
Defined.

(** ** Goroutines: what every interleaving keeps *)

Section ListFacts.
Context {A B : Type}.

(** Replacing one element of a list changes its share of a concatenation
    and nothing else. *)
Lemma concat_fmap_insert (f : A → list B) (l : list A) (i : nat) (x : A) :
  l !! i = Some x →
  ∃ R, concat (f <$> l) ≡ₚ f x ++ R
    ∧ ∀ y, concat (f <$> <[i := y]> l) ≡ₚ f y ++ R.
Proof.
  intros Hx.
  exists (concat (f <$> take i l) ++ concat (f <$> drop (S i) l)).
  split.
  - rewrite <- (take_drop_middle l i x Hx) at 1.
    rewrite fmap_app, concat_app, fmap_cons, concat_cons.
    apply Permutation_app_swap_app.
  - intros y. rewrite insert_take_drop by (by eapply lookup_lt_Some).
    rewrite fmap_app, concat_app, fmap_cons, concat_cons.
    apply Permutation_app_swap_app.
Qed.

Lemma filter_length_insert (P : A → Prop) `{!∀ x, Decision (P x)}
    (l : list A) (i : nat) (x y : A) :
  l !! i = Some x →
  (length (filter P (<[i := y]> l)) + (if decide (P x) then 1 else 0)
   = length (filter P l) + (if decide (P y) then 1 else 0))%nat.
Proof.
  intros Hx.
  rewrite insert_take_drop by (by eapply lookup_lt_Some).
  rewrite <- (take_drop_middle l i x Hx) at 3.
  rewrite !filter_app, !filter_cons, !length_app.
  destruct (decide (P x)), (decide (P y)); cbn; lia.
Qed.

End ListFacts.

Section GoroutineFacts.
Context {T : Type} (zero : T).
Local Abbreviation Queue := (Queue T).
Local Abbreviation call := (call T).
Local Abbreviation goroutine := (goroutine T).
Local Abbreviation world := (world T).
Implicit Types (q : Queue) (g : goroutine) (w : world) (c : call).

(** What a critical section that returned has done. *)
Lemma critical_Some c q r q' :
  cs_inv q → critical zero c q = Some (r, q') →
  r = (fifo_step zero c (contents zero q)).1
  ∧ contents zero q' = (fifo_step zero c (contents zero q)).2
  ∧ cs_inv q' ∧ mu q' = mu q.
Proof.
  intros Hinv Hc.
  assert (Decision (admits c q)) as [Hadm|Hadm].
  { destruct c; unfold admits, can_grow; apply _. }
  - destruct (critical_refines zero c q Hinv Hadm) as (q2 & Hc2 & ? & ? & _ & ?).
    rewrite Hc in Hc2. by simplify_eq.
  - by rewrite critical_overflow in Hc.
Qed.

Lemma values_step (total : list T) (l : list goroutine) i g g'
    (cont cont' : list T) :
  l !! i = Some g →
  pending g' ++ cont' ++ taken_so_far g'
    ≡ₚ pending g ++ cont ++ taken_so_far g →
  concat (pending <$> l) ++ cont ++ concat (taken_so_far <$> l) ≡ₚ total →
  concat (pending <$> <[i := g']> l) ++ cont'
    ++ concat (taken_so_far <$> <[i := g']> l) ≡ₚ total.
Proof.
  intros Hg Hstep Htotal.
  destruct (concat_fmap_insert pending l i g Hg) as (R1 & H1 & H1').
  destruct (concat_fmap_insert taken_so_far l i g Hg) as (R2 & H2 & H2').
  rewrite H1', H2'. rewrite <- Htotal, H1, H2.
  transitivity ((pending g' ++ cont' ++ taken_so_far g') ++ R1 ++ R2);
    [solve_Permutation|].
  rewrite Hstep. solve_Permutation.
Qed.

Lemma holders_insert (l : list goroutine) i g g' :
  l !! i = Some g →
  (length (filter (λ g, in_cs g = true) (<[i := g']> l))
     + (if in_cs g then 1 else 0)
   = length (filter (λ g, in_cs g = true) l)
     + (if in_cs g' then 1 else 0))%nat.
Proof.
  intros Hg.
  pose proof (filter_length_insert (λ g, in_cs g = true) l i g g' Hg) as Hc.
  destruct (decide (in_cs g = true)) as [->|Hn%not_true_is_false];
    destruct (decide (in_cs g' = true)) as [->|Hn'%not_true_is_false];
    rewrite ?Hn, ?Hn'; lia.
Qed.

(** A step of a goroutine, phase by phase. *)
Lemma step_cases i w w' :
  step zero i w = Some w' →
  ∃ g c rest q' g',
    routines w !! i = Some g ∧ todo g = c :: rest
    ∧ w' = mkWorld q' (<[i := g']> (routines w))
    ∧ ((at_phase g = Calling ∧ mu (shared w) = false
        ∧ q' = set_mu true (shared w)
        ∧ g' = mkGoroutine (c :: rest) Holding (got g))
       ∨ (∃ r, at_phase g = Holding
            ∧ critical zero c (shared w) = Some (r, q')
            ∧ g' = mkGoroutine (c :: rest) (Leaving r) (got g))
       ∨ (∃ r, at_phase g = Leaving r
            ∧ q' = set_mu false (shared w)
            ∧ g' = mkGoroutine rest Calling (got g ++ [r]))).
Proof.
  unfold step. intros Hs.
  destruct (routines w !! i) as [g|] eqn:Hg; [|done]. cbn in Hs.
  destruct (step_routine zero (shared w) g) as [[q' g']|] eqn:Hsr; [|done].
  cbn in Hs. injection Hs as <-.
  unfold step_routine in Hsr.
  destruct (todo g) as [|c rest] eqn:Htodo; [done|].
  exists g, c, rest, q', g'. split_and!; [done..|].
  destruct (at_phase g) as [| |r] eqn:Hph.
  - left. unfold Lock in Hsr. destruct (mu (shared w)); [done|].
    cbn in Hsr. by simplify_eq.
  - right; left.
    destruct (critical zero c (shared w)) as [[r q2]|]; [|done].
    cbn in Hsr. simplify_eq. by exists r.
  - right; right. simplify_eq. by exists r.
Qed.

Lemma step_inv (total : list T) i w w' :
  world_inv zero total w → step zero i w = Some w' →
  world_inv zero total w'.
Proof.
  intros [Hq Hmu Hcalls Hphase Hvals] Hs.
  apply step_cases in Hs
    as (g & c & rest & q' & g' & Hg & Htodo & -> & Hcase).
  pose proof (Forall_lookup_1 _ _ _ _ Hcalls Hg) as Hgc.
  cbn beta in Hgc. rewrite Htodo in Hgc.
  apply Forall_cons in Hgc as [Hc Hrest].
  pose proof (holders_insert (routines w) i g g' Hg) as Hcnt.
  unfold mutex_ok in Hmu.
  assert (in_cs g = match at_phase g with Calling => false | _ => true end)
    as Hin by done.
  destruct Hcase as [(Hph & Hfree & -> & ->)
                    |[(r & Hph & Hcrit & ->)|(r & Hph & -> & ->)]].
  - (* Lock *)
    split; cbn [shared routines].
    + by apply cs_inv_set_mu.
    + unfold mutex_ok. cbn [shared routines mu set_mu].
      rewrite Hfree in Hmu. rewrite Hin, Hph in Hcnt. cbn in Hcnt. lia.
    + apply Forall_insert; [done|]. cbn. by apply Forall_cons.
    + apply Forall_insert; [done|]. by cbn.
    + eapply values_step; [done| |done].
      unfold pending, taken_so_far. rewrite Hph, Htodo. by cbn.
  - (* the critical section *)
    apply critical_Some in Hcrit as (-> & Hcont & Hq' & Hmu'); [|done].
    split; cbn [shared routines].
    + done.
    + unfold mutex_ok. cbn [shared routines]. rewrite Hmu'.
      rewrite Hin, Hph in Hcnt. cbn in Hcnt. lia.
    + apply Forall_insert; [done|]. cbn. by apply Forall_cons.
    + apply Forall_insert; [done|]. by cbn.
    + eapply values_step; [done| |done].
      unfold pending, taken_so_far. rewrite Hph, Htodo, Hcont.
      cbn [at_phase todo got drop]. rewrite !omap_app.
      destruct c as [v| | | | |]; try done; cbn.
      * solve_Permutation.
      * destruct (contents zero (shared w)); cbn; solve_Permutation.
  - (* the deferred Unlock *)
    split; cbn [shared routines].
    + by apply cs_inv_set_mu.
    + unfold mutex_ok. cbn [shared routines mu set_mu].
      rewrite Hin, Hph in Hcnt. cbn in Hcnt.
      destruct (mu (shared w)); lia.
    + apply Forall_insert; [done|]. by cbn.
    + apply Forall_insert; [done|]. by cbn.
    + eapply values_step; [done| |done].
      unfold pending, taken_so_far. rewrite Hph, Htodo.
      cbn [at_phase todo got drop]. by rewrite app_nil_r, drop_0.
Qed.

Lemma run_inv (total : list T) sched w w' :
  world_inv zero total w → run zero sched w = Some w' →
  world_inv zero total w'.
Proof.
  revert w. induction sched as [|i sched IH]; intros w Hinv Hr.
  - cbn in Hr. by simplify_eq.
  - cbn in Hr. destruct (step zero i w) as [w1|] eqn:Hs; [|done].
    cbn in Hr. eapply IH; [|done]. by eapply step_inv.
Qed.

(** *** The start *)

Lemma enq_values_enqueue (vs : list T) : enq_values (CEnqueue <$> vs) = vs.
Proof. induction vs as [|v vs IH]; [done|]. cbn. by f_equal. Qed.

Lemma enq_values_dequeue (M : nat) :
  enq_values (replicate M (CDequeue : call)) = [].
Proof. induction M as [|M IH]; [done|]. by cbn. Qed.

Lemma pending_spawn (p : list call) : pending (spawn p) = enq_values p.
Proof. done. Qed.

Lemma pending_enqueuers (vss : list (list T)) :
  concat (pending <$> (spawn <$> enqueuers vss)) = concat vss.
Proof.
  unfold enqueuers. induction vss as [|vs vss IH]; [done|].
  rewrite !fmap_cons. cbn [concat].
  by rewrite pending_spawn, enq_values_enqueue, IH.
Qed.

Lemma pending_dequeuers (G M : nat) :
  concat (pending <$> (spawn <$> dequeuers G M)) = ([] : list T).
Proof.
  unfold dequeuers. induction G as [|G IH]; [done|].
  cbn [replicate]. rewrite !fmap_cons. cbn [concat].
  by rewrite pending_spawn, enq_values_dequeue, IH.
Qed.

Lemma taken_spawn (ps : list (list call)) :
  concat (taken_so_far <$> (spawn <$> ps)) = ([] : list T).
Proof. induction ps as [|p ps IH]; [done|]. by cbn. Qed.

Lemma holders_spawn (ps : list (list call)) :
  filter (λ g : goroutine, in_cs g = true) (spawn <$> ps) = [].
Proof.
  induction ps as [|p ps IH]; [done|].
  rewrite fmap_cons, filter_cons. rewrite decide_False; [done|by cbn].
Qed.

Lemma start_inv (vss : list (list T)) (G M : nat) q :
  fresh zero q →
  world_inv zero (concat vss) (start q (enqueuers vss ++ dequeuers G M)).
Proof.
  intros [[Hinv Hmu] Hc]%fresh_wf. unfold start. split; cbn [shared routines].
  - done.
  - unfold mutex_ok. cbn [shared routines]. by rewrite holders_spawn, Hmu.
  - apply Forall_fmap, Forall_app. split.
    + apply Forall_fmap, Forall_true. intros vs. cbn.
      by apply Forall_fmap, Forall_true.
    + apply Forall_replicate. cbn. by apply Forall_replicate.
  - by apply Forall_fmap, Forall_true.
  - rewrite taken_spawn, app_nil_r, (contents_empty zero q Hc), app_nil_r.
    rewrite !fmap_app, concat_app.
    by rewrite pending_enqueuers, pending_dequeuers, app_nil_r.
Qed.

(** *** The end *)

Lemma idle_routines (l : list goroutine) :
  Forall (λ g, todo g = [] ∧ at_phase g = Calling) l →
  filter (λ g, in_cs g = true) l = []
  ∧ concat (pending <$> l) = []
  ∧ concat (taken_so_far <$> l)
    = concat ((λ g, omap taken_of (got g)) <$> l).
Proof.
  induction 1 as [|g l [Ht Hp] _ (IH1 & IH2 & IH3)]; [done|].
  split_and!.
  - rewrite filter_cons, decide_False; [done|].
    unfold in_cs. by rewrite Hp.
  - rewrite fmap_cons. cbn [concat]. unfold pending at 1.
    by rewrite Hp, Ht, IH2.
  - rewrite !fmap_cons. cbn [concat]. unfold taken_so_far at 1.
    by rewrite Hp, app_nil_r, IH3.
Qed.

Lemma finished_idle (total : list T) w :
  world_inv zero total w → finished w →
  concat (pending <$> routines w) = []
  ∧ concat (taken_so_far <$> routines w) = all_taken w
  ∧ mu (shared w) = false.
Proof.
  intros [_ Hmu _ Hphase _] Hfin.
  unfold finished, all_taken, mutex_ok in *.
  destruct (idle_routines (routines w)) as (Hnone & Hpend & Htaken).
  { rewrite Forall_forall in Hfin, Hphase. apply Forall_forall.
    intros g Hg. specialize (Hfin g Hg). specialize (Hphase g Hg).
    split; [done|]. unfold in_cs in Hphase.
    destruct (at_phase g); [done|by destruct Hphase..]. }
  rewrite Hnone in Hmu. split_and!; [done..|].
  destruct (mu (shared w)); [by cbn in Hmu|done].
Qed.

Lemma length_concat_uniform (M : nat) (vss : list (list T)) :
  Forall (λ vs, length vs = M) vss →
  length (concat vss) = (length vss * M)%nat.
Proof.
  induction 1 as [|vs vss Hvs _ IH]; [done|].
  cbn. rewrite length_app, IH, Hvs. lia.
Qed.

Lemma Len_idle q : mu q = false → Len q = Some (count q, q).
Proof.
  intros Hmu. unfold Len, locked, Lock. rewrite Hmu. cbn.
  destruct q; cbn in *. by subst.
Qed.

(** *** No run gets stuck short of the end *)

Lemma step_progress (total : list T) w :
  world_inv zero total w →
  2 * Z.of_nat (length total) ≤ GoInt.max_int →
  finished w ∨ ∃ i, is_Some (step zero i w).
Proof.
  intros [Hq Hmu Hcalls Hphase Hvals] Hfit. unfold mutex_ok in Hmu.
  destruct (mu (shared w)) eqn:Hheld.
  - (* the mutex is held: its holder can go on *)
    right.
    destruct (filter (λ g, in_cs g = true) (routines w)) as [|g ?] eqn:Hf;
      [done|].
    assert (g ∈ filter (λ g, in_cs g = true) (routines w)) as Hg
      by (rewrite Hf; left).
    apply list_elem_of_filter in Hg as [Hin Hg].
    apply list_elem_of_lookup_1 in Hg as [i Hi].
    exists i. unfold step. rewrite Hi. cbn [mbind option_bind].
    pose proof (Forall_lookup_1 _ _ _ _ Hphase Hi Hin) as Htodo.
    pose proof (Forall_lookup_1 _ _ _ _ Hcalls Hi) as Hgc. cbn beta in Hgc.
    unfold step_routine.
    destruct (todo g) as [|c rest] eqn:Ht; [done|].
    apply Forall_cons in Hgc as [Hc _].
    unfold in_cs in Hin.
    destruct (at_phase g) as [| |r] eqn:Hph; [done| |done].
    destruct (critical_refines zero c (shared w) Hq) as (q' & -> & _);
      [|done].
    destruct c as [v| | | | |]; try done. cbn.
    destruct (decide (count (shared w) < len (data (shared w))));
      [by left|right].
    destruct (concat_fmap_insert pending (routines w) i g Hi)
      as (R & HR & _).
    rewrite HR in Hvals. apply Permutation_length in Hvals.
    unfold pending in Hvals at 1. rewrite Hph, Ht in Hvals.
    cbn in Hvals. rewrite !length_app, length_contents in Hvals.
    destruct Hq as [[] ?]. lia.
  - (* the mutex is free: whoever has a call left can take it *)
    apply nil_length_inv in Hmu.
    assert (∀ g : goroutine, Decision (todo g = [])) as Hdec.
    { intros g. destruct (todo g); [by left|by right]. }
    destruct (Forall_dec (λ g : goroutine, todo g = []) (routines w))
      as [Hfin|Hnot]; [by left|right].
    apply (not_Forall_Exists _) in Hnot.
    apply Exists_exists in Hnot as (g & Hg & Hn).
    cbn in Hn.
    assert (in_cs g = false) as Hin.
    { destruct (in_cs g) eqn:Hin; [|done].
      by destruct (filter_nil_not_elem_of _ _ g Hmu Hin). }
    apply list_elem_of_lookup_1 in Hg as [i Hi].
    exists i. unfold step. rewrite Hi. cbn [mbind option_bind].
    unfold step_routine, Lock. rewrite Hheld.
    destruct (todo g) as [|c rest]; [done|].
    unfold in_cs in Hin. by destruct (at_phase g).
Qed.

(** ** The properties of the specification: goroutines *)

(** C9 (conservation under the mutex).  Goroutines that each enqueue [M]
    values and goroutines that each call [Dequeue] [M'] times share a
    fresh queue, and run interleaved in any order the mutex allows.  Once
    all of them have finished, [Len] is the number of values enqueued
    less the number of successful [Dequeue]s; the values dequeued and the
    values left are together the values enqueued, each as often, so with
    distinct values none is duplicated and none is lost; and a queue
    drained to length [0] gave back exactly what went in.  At every
    moment of every run the mutex is held exactly when one goroutine is
    inside a call, and no two are; and as long as twice the number of
    values fits an [int], a run that has not finished can go on: no
    goroutine panics and the goroutines never all wait. *)
Theorem concurrent_conservation (vss : list (list T)) (M G' M' : nat)
    (q0 : Queue) (sched : list nat) (w : world) :
  fresh zero q0 →
  Forall (λ vs, length vs = M) vss →
  run zero sched (start q0 (enqueuers vss ++ dequeuers G' M')) = Some w →
  finished w →
  Len (shared w)
  = Some (Z.of_nat (length vss * M) - Z.of_nat (length (all_taken w)),
          shared w)
  ∧ all_taken w ++ contents zero (shared w) ≡ₚ concat vss
  ∧ (NoDup (concat vss) →
       NoDup (all_taken w ++ contents zero (shared w)))
  ∧ (count (shared w) = 0 → all_taken w ≡ₚ concat vss)
  ∧ (∀ sched' w',
       run zero sched' (start q0 (enqueuers vss ++ dequeuers G' M'))
       = Some w' →
       mutex_ok w'
       ∧ (2 * Z.of_nat (length vss * M) ≤ GoInt.max_int →
            finished w' ∨ ∃ i, is_Some (step zero i w'))).
Proof.
  intros Hfresh Hlen Hrun Hfin.
  pose proof (start_inv vss G' M' q0 Hfresh) as Hstart.
  pose proof (run_inv _ _ _ _ Hstart Hrun) as Hinv.
  destruct (finished_idle _ _ Hinv Hfin) as (Hpend & Htaken & Hmu).
  pose proof (winv_values _ _ _ Hinv) as Hvals.
  rewrite Hpend, Htaken in Hvals. cbn [app] in Hvals.
  assert (all_taken w ++ contents zero (shared w) ≡ₚ concat vss) as Hperm.
  { by rewrite <- Hvals, Permutation_app_comm. }
  pose proof (Permutation_length Hperm) as Hl.
  rewrite length_app, length_contents, (length_concat_uniform M) in Hl
    by done.
  destruct (winv_queue _ _ _ Hinv) as [[] _].
  split_and!.
  - rewrite Len_idle by done. do 2 f_equal. lia.
  - done.
  - intros Hnd. by rewrite Hperm.
  - intros Hc. rewrite (contents_empty zero _ Hc), app_nil_r in Hperm. done.
  - intros sched' w' Hrun'.
    pose proof (run_inv _ _ _ _ Hstart Hrun') as Hinv'.
    split; [by destruct Hinv'|]. intros Hfit.
    apply (step_progress _ _ Hinv').
    by rewrite (length_concat_uniform M).
Qed.

End GoroutineFacts.

(** Two goroutines enqueue [1; 2] and [3; 4], two call [Dequeue] twice
    each, and their calls alternate. *)
Lemma concurrent_conservation_witness :
  let q0 := mkQueue false [0; 0] 0 0 0 in
  let progs := enqueuers [[1; 2]; [3; 4]] ++ dequeuers 2 2 in
  let sched := [0; 0; 0; 1; 1; 1; 2; 2; 2; 0; 0; 0;
                3; 3; 3; 1; 1; 1; 2; 2; 2; 3; 3; 3]%nat in
  ∃ w, run 0 sched (start q0 progs) = Some w
    ∧ finished w
    ∧ Len (shared w) = Some (4 - Z.of_nat (length (all_taken w)), shared w)
    ∧ all_taken w ++ contents 0 (shared w) ≡ₚ [1; 2; 3; 4]
    ∧ (NoDup [1; 2; 3; 4] → NoDup (all_taken w ++ contents 0 (shared w)))
    ∧ (count (shared w) = 0 → all_taken w ≡ₚ [1; 2; 3; 4])
    ∧ (∀ sched' w',
         run 0 sched' (start q0 progs) = Some w' →
         mutex_ok w'
         ∧ (2 * 4 ≤ GoInt.max_int →
              finished w' ∨ ∃ i, is_Some (step 0 i w'))).
Proof.
  intros q0 progs sched. eexists.
  split; [vm_compute; reflexivity|].
  split; [repeat constructor|].
  apply (concurrent_conservation 0 [[1; 2]; [3; 4]] 2 2 2 q0 sched).
  - left. reflexivity.
  - repeat constructor.
  - vm_compute. reflexivity.
  - repeat constructor.
Defined.

(** * More of the queue *)

Section QueueMore.
Context {T : Type} (zero : T).
Local Abbreviation Queue := (Queue T).
Local Abbreviation call := (call T).
Implicit Types (q : Queue) (v x : T) (c : call) (cs : list call).

Local Ltac int_range :=
  unfold GoInt.in_range, GoInt.min_int, GoInt.max_int in *; lia.

Lemma count_contents q :
  cs_inv q → count q = Z.of_nat (length (contents zero q)).
Proof. intros [[] ?]. rewrite length_contents. lia. Qed.

Lemma fifo_step_length c (l : list T) :
  (length (fifo_step zero c l).2
   ≤ length l + (if is_enqueue c then 1 else 0))%nat.
Proof.
  destruct c; cbn; rewrite ?length_app; cbn; try lia.
  all: destruct l; cbn; lia.
Qed.

Lemma exec_all_refines cs q :
  wf q →
  2 * (count q + Z.of_nat (length (filter (λ c, is_enqueue c = true) cs)))
    ≤ GoInt.max_int →
  ∃ q', exec_all zero cs q
        = Some ((fifo_run zero cs (contents zero q)).1, q')
    ∧ contents zero q' = (fifo_run zero cs (contents zero q)).2
    ∧ wf q'.
Proof.
  revert q. induction cs as [|c cs IH]; intros q Hwf Hfit.
  - by exists q.
  - cbn [exec_all fifo_run].
    rewrite filter_cons in Hfit.
    destruct (exec_refines zero c q Hwf) as (q1 & -> & Hc1 & Hwf1 & _).
    { destruct c; try done. cbn. unfold can_grow.
      rewrite decide_True in Hfit by done. cbn in Hfit.
      destruct Hwf as [[[] ?] ?]. lia. }
    cbn [mbind option_bind].
    pose proof (fifo_step_length c (contents zero q)) as Hlen.
    rewrite <- Hc1 in Hlen.
    destruct (fifo_step zero c (contents zero q)) as [r l1] eqn:Hstep.
    cbn [fst snd] in *.
    destruct (IH q1 Hwf1) as (q' & -> & Hc' & Hwf').
    { rewrite (count_contents q1) by apply Hwf1.
      rewrite (count_contents q) in Hfit by apply Hwf.
      destruct (decide (is_enqueue c = true)) as [He|He].
      - rewrite He in Hlen. cbn in Hfit. lia.
      - apply not_true_is_false in He. rewrite He in Hlen. lia. }
    cbn [mbind option_bind]. rewrite Hc1 in *.
    destruct (fifo_run zero cs l1) as [rs l2]. by exists q'.
Qed.

Lemma Enqueue_room v q :
  wf q → count q < len (data q) →
  ∃ q', Enqueue zero v q = Some (tt, q')
    ∧ contents zero q' = contents zero q ++ [v]
    ∧ wf q' ∧ len (data q') = len (data q) ∧ count q' = count q + 1.
Proof.
  intros [Hinv Hmu] Hroom.
  destruct (enqueue_cs_room zero v (set_mu true q))
    as (q' & He & Hinv' & Hc & Hn & Hl & Hm);
    [by apply cs_inv_set_mu|done|].
  exists (set_mu false q'). split_and!; try done.
  - by apply locked_Some.
  - split; [by apply cs_inv_set_mu|done].
Qed.

Lemma enqueue_all_room (vs : list T) q :
  wf q → count q + Z.of_nat (length vs) ≤ len (data q) →
  ∃ q', enqueue_all zero vs q = Some q'
    ∧ wf q' ∧ contents zero q' = contents zero q ++ vs
    ∧ len (data q') = len (data q).
Proof.
  revert q. induction vs as [|v vs IH]; intros q Hwf Hfit.
  - exists q. by rewrite app_nil_r.
  - cbn [enqueue_all]. cbn in Hfit.
    destruct (Enqueue_room v q Hwf) as (q1 & -> & Hc1 & Hwf1 & Hl1 & Hn1);
      [lia|].
    cbn [mbind option_bind].
    destruct (IH q1 Hwf1) as (q' & -> & ? & Hc' & Hl'); [lia|].
    exists q'. split_and!; [done..| |congruence].
    by rewrite Hc', Hc1, <- app_assoc.
Qed.

Lemma Peek_spec q :
  wf q →
  Peek zero q
  = Some (match contents zero q with
          | [] => (zero, false)
          | x :: _ => (x, true)
          end, q).
Proof.
  intros [Hinv Hmu].
  destruct (peek_cs_spec zero (set_mu true q)) as (r & Hp & Hz & Hnz);
    [by apply cs_inv_set_mu|].
  unfold Peek. erewrite locked_Some; [|done..].
  rewrite set_mu_twice, set_mu_same by done. do 2 f_equal.
  destruct (decide (count q = 0)) as [Hc|Hc].
  - rewrite (contents_empty zero q Hc). by apply Hz.
  - destruct Hnz as (x & rest & _ & -> & Hcont).
    { cbn. destruct Hinv as [[] ?]. lia. }
    rewrite contents_set_mu in Hcont. by rewrite Hcont.
Qed.

Lemma Dequeue_empty q :
  wf q → count q = 0 → Dequeue zero q = Some ((zero, false), q).
Proof.
  intros [Hinv Hmu] Hc. unfold Dequeue.
  erewrite locked_Some; [|done|by apply dequeue_cs_empty].
  by rewrite set_mu_twice, set_mu_same.
Qed.

(** Sequences of calls.  From a reachable queue, any sequence of calls
    whose [Enqueue]s do not take the buffer past what can be doubled
    returns, and returns what the same calls return on a list used as a
    queue (append at the back, take from the front); the elements left are
    those of that list. *)
Theorem call_sequence_refines_fifo cs q :
  reachable zero q →
  2 * (count q + Z.of_nat (length (filter (λ c, is_enqueue c = true) cs)))
    ≤ GoInt.max_int →
  ∃ q', exec_all zero cs q
        = Some ((fifo_run zero cs (contents zero q)).1, q')
    ∧ contents zero q' = (fifo_run zero cs (contents zero q)).2
    ∧ reachable zero q'.
Proof.
  intros Hreach Hfit.
  destruct (exec_all_refines cs q (reachable_wf zero q Hreach) Hfit)
    as (q' & He & Hc & _).
  exists q'. split_and!; [done..|].
  clear Hfit Hc. revert Hreach He.
  generalize ((fifo_run zero cs (contents zero q)).1). revert q.
  induction cs as [|c cs IH]; intros q rs Hreach He.
  - cbn in He. by simplify_eq.
  - cbn [exec_all] in He.
    destruct (exec zero c q) as [[r q1]|] eqn:Hc; [|done].
    cbn [mbind option_bind] in He.
    destruct (exec_all zero cs q1) as [[rs1 q2]|] eqn:Hcs; [|done].
    cbn in He. simplify_eq.
    eapply IH; [|done]. by eapply reachable_call.
Qed.

(** Pre-allocation.  A queue made by [NewWithCapacity(capacity)] takes
    [max(capacity, 1)] values without a panic and without growing: the
    buffer keeps that length, and holds the values in order. *)
Theorem NewWithCapacity_no_regrowth (capacity : Z) (vs : list T) :
  GoInt.in_range capacity →
  Z.of_nat (length vs) ≤ Z.max capacity 1 →
  ∃ q0 q, NewWithCapacity zero capacity = Some q0
    ∧ enqueue_all zero vs q0 = Some q
    ∧ len (data q) = Z.max capacity 1
    ∧ contents zero q = vs.
Proof.
  intros Hr Hfit.
  destruct (NewWithCapacity_spec zero capacity Hr)
    as (q0 & Hq0 & Hwf & Hc & Hl).
  destruct (enqueue_all_room vs q0 Hwf) as (q & Hq & _ & Hcont & Hlen);
    [lia|].
  exists q0, q. split_and!; [done..|congruence|].
  by rewrite Hcont, (contents_empty zero q0 Hc).
Qed.

(** Peek and Dequeue agree.  On a reachable queue [Peek] returns what the
    next [Dequeue] returns, value and flag, and leaves the queue alone. *)
Theorem Peek_is_next_Dequeue q :
  reachable zero q →
  ∃ r q', Peek zero q = Some (r, q) ∧ Dequeue zero q = Some (r, q').
Proof.
  intros Hwf%reachable_wf.
  destruct (Dequeue_spec zero q Hwf) as (q' & Hd & _).
  eexists _, q'. split; [by apply Peek_spec|done].
Qed.

(** Dequeue on an empty queue.  On a reachable queue that holds nothing,
    any number of calls of [Dequeue] return the zero value and [false]
    each, and the queue stays exactly as it was. *)
Theorem Dequeue_empty_idle (n : nat) q :
  reachable zero q → count q = 0 →
  dequeue_n zero n q = Some (replicate n (zero, false), q).
Proof.
  intros Hwf%reachable_wf Hc. induction n as [|n IH]; [done|].
  cbn [dequeue_n]. rewrite (Dequeue_empty q Hwf Hc). cbn.
  by rewrite IH.
Qed.

(** *** The shape of the queue after a call *)

Lemma locked_inv {R} (body : Queue → option (R * Queue)) q r q2 :
  locked body q = Some (r, q2) →
  mu q = false
  ∧ ∃ q', body (set_mu true q) = Some (r, q') ∧ q2 = set_mu false q'.
Proof.
  unfold locked, Lock. destruct (mu q); [done|]. cbn.
  destruct (body (set_mu true q)) as [[r' q']|]; [|done].
  cbn. intros ?. simplify_eq. split; [done|]. by exists q'.
Qed.

Lemma enqueue_cs_room_eq v q :
  cs_inv q → count q < len (data q) →
  enqueue_cs zero v q
  = Some (tt, mkQueue (mu q) (<[Z.to_nat (tail q) := v]> (data q)) (head q)
                ((tail q + 1) `mod` len (data q)) (count q + 1)).
Proof.
  intros [[] ?] Hroom. unfold enqueue_cs.
  rewrite decide_False by lia. cbn [mbind option_bind].
  rewrite store_Some by lia. cbn [mbind option_bind].
  cbn [set_data data tail count]. rewrite len_insert.
  rewrite (add_in_range (tail q) 1) by int_range.
  rewrite rem_nonneg by lia. cbn [mbind option_bind].
  cbn [set_tail set_data count].
  by rewrite (add_in_range (count q) 1) by int_range.
Qed.

Lemma dequeue_cs_eq q :
  cs_inv q → 0 < count q →
  ∃ x, dequeue_cs zero q
       = Some ((x, true),
               mkQueue (mu q) (<[Z.to_nat (head q) := zero]> (data q))
                 ((head q + 1) `mod` len (data q)) (tail q) (count q - 1)).
Proof.
  intros [[] ?] Hpos. unfold dequeue_cs.
  rewrite decide_False by lia.
  destruct (index_is_Some (data q) (head q)) as [x Hx]; [lia|].
  rewrite Hx. cbn [mbind option_bind].
  rewrite store_Some by lia. cbn [mbind option_bind].
  cbn [set_data data head count]. rewrite len_insert.
  rewrite (add_in_range (head q) 1) by int_range.
  rewrite rem_nonneg by lia. cbn [mbind option_bind].
  cbn [set_head set_data count].
  unfold GoInt.sub. rewrite wrap_in_range by int_range.
  by exists x.
Qed.

Lemma clear_cs_eq q :
  cs_inv q →
  ∃ d, clear_cs zero q = Some (tt, mkQueue (mu q) d 0 0 0)
    ∧ len d = len (data q)
    ∧ ∀ k : nat, Z.of_nat k < len (data q) → d !! k = Some zero.
Proof.
  intros [[] ?]. unfold clear_cs.
  destruct (clear_loop_spec zero (Z.to_nat (len (data q))) 0 (data q))
    as (d & -> & Hlen & Hlk); [lia..|].
  exists d. split_and!; [done..|].
  intros k Hk. rewrite Hlk. by rewrite decide_True by lia.
Qed.

(** An [Enqueue] that finds the buffer full goes on in the queue that
    [resize] returns. *)
Lemma enqueue_cs_full v q :
  cs_inv q → count q = len (data q) → can_grow q →
  ∃ nd, let q1 := mkQueue (mu q) nd 0 (count q) (count q) in
    enqueue_cs zero v q = enqueue_cs zero v q1
    ∧ cs_inv q1 ∧ len nd = 2 * len (data q)
    ∧ (∀ k : nat, count q ≤ Z.of_nat k < len nd → nd !! k = Some zero).
Proof.
  intros Hinv Hfull [?|Hmax]; [lia|].
  destruct (resize_spec zero q Hinv Hfull Hmax) as (nd & Hr & Hlen & _ & Hz).
  destruct (resize_keeps zero q Hinv Hfull Hmax) as (q1 & Hr1 & Hinv1 & _).
  rewrite Hr in Hr1. injection Hr1 as <-.
  exists nd. cbn zeta. split_and!; [|done| |done].
  - unfold enqueue_cs at 1. rewrite decide_True by done. rewrite Hr.
    unfold enqueue_cs. rewrite decide_False; [done|].
    cbn. destruct Hinv as [[] ?]. lia.
  - destruct Hinv as [[] ?]. lia.
Qed.

Lemma critical_len c q r q' :
  cs_inv q → critical zero c q = Some (r, q') →
  (is_enqueue c = true ∧ count q = len (data q)
   ∧ len (data q') = 2 * len (data q) ∧ count q' = len (data q) + 1)
  ∨ (¬ (is_enqueue c = true ∧ count q = len (data q))
     ∧ len (data q') = len (data q)).
Proof.
  intros Hinv Hc. destruct c as [v| | | | |]; cbn in Hc.
  - destruct (decide (can_grow q)) as [Hg|Hg];
      [|by rewrite enqueue_cs_overflow in Hc].
    destruct (decide (count q = len (data q))) as [Hfull|Hroom].
    + destruct (enqueue_cs_full v q Hinv Hfull Hg)
        as (nd & He & Hinv1 & Hlen & _).
      cbn zeta in *. rewrite He in Hc.
      rewrite enqueue_cs_room_eq in Hc;
        [|done|cbn; destruct Hinv as [[] ?]; lia].
      cbn in Hc. simplify_eq. left. cbn.
      rewrite len_insert. split_and!; [done..|lia].
    + rewrite enqueue_cs_room_eq in Hc;
        [|done|destruct Hinv as [[] ?]; lia].
      cbn in Hc. simplify_eq. right. cbn. rewrite len_insert.
      split; [by intros [_ ?]|done].
  - right. split; [by intros [? _]|].
    destruct (decide (count q = 0)) as [Hz|Hz].
    + rewrite dequeue_cs_empty in Hc by done. cbn in Hc.
      unfold elem_ret in Hc. by simplify_eq/=.
    + destruct (dequeue_cs_eq q Hinv) as (x & Hd);
        [destruct Hinv as [[] ?]; lia|].
      rewrite Hd in Hc. cbn in Hc. unfold elem_ret in Hc. simplify_eq/=.
      by rewrite len_insert.
  - right. split; [by intros [? _]|].
    destruct (peek_cs_spec zero q Hinv) as (p & Hp & _).
    rewrite Hp in Hc. cbn in Hc. unfold elem_ret in Hc. by simplify_eq/=.
  - right. split; [by intros [? _]|]. by simplify_eq.
  - right. split; [by intros [? _]|]. by simplify_eq.
  - right. split; [by intros [? _]|].
    destruct (clear_cs_eq q Hinv) as (d & Hd & Hlen & _).
    rewrite Hd in Hc. cbn in Hc. by simplify_eq/=.
Qed.

(** Growth.  An [Enqueue] on a reachable queue whose buffer is full, when
    it returns, leaves a buffer exactly twice as long, holding one element
    more than the old buffer had slots.  Every other call that returns,
    an [Enqueue] with room and every [Dequeue], [Peek], [Len], [IsEmpty]
    and [Clear], leaves the length of the buffer as it was. *)
Theorem capacity_doubles_when_full c q r q' :
  reachable zero q →
  exec zero c q = Some (r, q') →
  (is_enqueue c = true → count q = len (data q) →
     len (data q') = 2 * len (data q) ∧ count q' = len (data q) + 1)
  ∧ (¬ (is_enqueue c = true ∧ count q = len (data q)) →
       len (data q') = len (data q)).
Proof.
  intros [Hinv Hmu]%reachable_wf He.
  rewrite exec_locked in He.
  apply locked_inv in He as (_ & q1 & Hc & ->).
  apply critical_len in Hc; [|by apply cs_inv_set_mu].
  cbn in Hc. destruct Hc as [(? & ? & ? & ?)|[Hn ?]].
  - split; [done|]. intros Hnot. by destruct Hnot.
  - split; [|done]. intros ? ?. by destruct Hn.
Qed.

(** Clear.  On a reachable queue [Clear] returns; the buffer keeps its
    length and every slot of it holds the zero value; [head], [tail] and
    [count] are [0]; and [Dequeue] and [Peek] then report an empty queue. *)
Theorem Clear_resets q :
  reachable zero q →
  ∃ q', Clear zero q = Some (tt, q')
    ∧ len (data q') = len (data q)
    ∧ head q' = 0 ∧ tail q' = 0 ∧ count q' = 0
    ∧ (∀ k : nat, Z.of_nat k < len (data q) → data q' !! k = Some zero)
    ∧ Dequeue zero q' = Some ((zero, false), q')
    ∧ Peek zero q' = Some ((zero, false), q').
Proof.
  intros Hreach. pose proof (reachable_wf zero q Hreach) as [Hinv Hmu].
  destruct (clear_cs_eq (set_mu true q)) as (d & Hd & Hlen & Hz);
    [by apply cs_inv_set_mu|].
  eexists. split; [unfold Clear; by erewrite locked_Some|].
  cbn. by split_and!.
Qed.

(** *** Slots without a live element *)

Lemma dead_zero_set_mu b q : dead_zero zero q → dead_zero zero (set_mu b q).
Proof. intros Hd k Hk Hl. by apply Hd. Qed.

Lemma dead_zero_enqueue_room v q :
  cs_inv q → count q < len (data q) → dead_zero zero q →
  dead_zero zero
    (mkQueue (mu q) (<[Z.to_nat (tail q) := v]> (data q)) (head q)
       ((tail q + 1) `mod` len (data q)) (count q + 1)).
Proof.
  intros [[] ?] Hroom Hd k Hk Hl. unfold live in Hl. cbn in *.
  rewrite len_insert in Hk, Hl.
  assert (Z.of_nat k ≠ tail q) as Hne.
  { intros Heq. apply Hl. exists (count q). split; [lia|congruence]. }
  rewrite list_lookup_insert_ne by lia.
  apply Hd; [done|]. intros (i & Hi & Heq).
  apply Hl. exists i. split; [lia|done].
Qed.

Lemma dead_zero_dequeue q :
  cs_inv q → 0 < count q → dead_zero zero q →
  dead_zero zero
    (mkQueue (mu q) (<[Z.to_nat (head q) := zero]> (data q))
       ((head q + 1) `mod` len (data q)) (tail q) (count q - 1)).
Proof.
  intros [[] ?] Hpos Hd k Hk Hl. unfold live in Hl. cbn in *.
  rewrite len_insert in Hk, Hl.
  destruct (decide (Z.of_nat k = head q)) as [Heq|Hne].
  - rewrite <- Heq, Nat2Z.id. apply list_lookup_insert_eq.
    unfold len in *. lia.
  - rewrite list_lookup_insert_ne by lia.
    apply Hd; [done|]. intros (i & Hi & Heq).
    destruct (decide (i = 0)) as [->|Hi0].
    + rewrite Z.add_0_r, Z.mod_small in Heq by lia. done.
    + apply Hl. exists (i - 1). split; [lia|].
      rewrite Zplus_mod_idemp_l, Heq. f_equal. lia.
Qed.

Lemma critical_dead_zero c q r q' :
  cs_inv q → dead_zero zero q → critical zero c q = Some (r, q') →
  dead_zero zero q'.
Proof.
  intros Hinv Hd Hc. destruct c as [v| | | | |]; cbn in Hc.
  - destruct (decide (can_grow q)) as [Hg|Hg];
      [|by rewrite enqueue_cs_overflow in Hc].
    destruct (decide (count q = len (data q))) as [Hfull|Hroom].
    + destruct (enqueue_cs_full v q Hinv Hfull Hg)
        as (nd & He & Hinv1 & Hlen & Hz).
      cbn zeta in *. rewrite He in Hc.
      assert (0 ≤ count q < len nd) as Hcount
        by (destruct Hinv as [[] ?]; lia).
      rewrite enqueue_cs_room_eq in Hc; [|done|cbn; lia].
      cbn in Hc. simplify_eq.
      apply (dead_zero_enqueue_room v
               (mkQueue (mu q) nd 0 (count q) (count q))); [done|cbn; lia|].
      intros k Hk Hl. cbn in *. apply Hz. split; [|done].
      destruct (decide (count q ≤ Z.of_nat k)); [done|].
      destruct Hl. exists (Z.of_nat k). cbn. split; [lia|].
      rewrite Z.add_0_l, Z.mod_small; lia.
    + rewrite enqueue_cs_room_eq in Hc; [|done|destruct Hinv as [[] ?]; lia].
      cbn in Hc. simplify_eq.
      apply dead_zero_enqueue_room; [done| |done].
      destruct Hinv as [[] ?]. lia.
  - destruct (decide (count q = 0)) as [Hz|Hz].
    + rewrite dequeue_cs_empty in Hc by done. cbn in Hc.
      unfold elem_ret in Hc. by simplify_eq/=.
    + assert (0 < count q) as Hpos by (destruct Hinv as [[] ?]; lia).
      destruct (dequeue_cs_eq q Hinv Hpos) as (x & Hq).
      rewrite Hq in Hc. cbn in Hc. unfold elem_ret in Hc. simplify_eq/=.
      by apply dead_zero_dequeue.
  - destruct (peek_cs_spec zero q Hinv) as (p & Hp & _).
    rewrite Hp in Hc. cbn in Hc. unfold elem_ret in Hc. by simplify_eq/=.
  - by simplify_eq.
  - by simplify_eq.
  - destruct (clear_cs_eq q Hinv) as (d & Hq & Hlen & Hz).
    rewrite Hq in Hc. cbn in Hc. simplify_eq.
    intros k Hk _. cbn in *. apply Hz. lia.
Qed.

Lemma fresh_dead_zero q : fresh zero q → dead_zero zero q.
Proof.
  intros Hfresh k Hk _.
  assert (∃ n, data q = replicate n zero) as [n Hn].
  { destruct Hfresh as [Hq|(c & _ & Hq)].
    - unfold New in Hq. rewrite make_Some in Hq by lia.
      cbn in Hq. simplify_eq. by eexists.
    - unfold NewWithCapacity, make in Hq.
      destruct (decide (_ < 0)); [done|]. cbn in Hq. simplify_eq.
      by eexists. }
  rewrite Hn in *. apply lookup_replicate_2.
  unfold len in Hk. rewrite length_replicate in Hk. lia.
Qed.

(** No element lingers.  In every reachable queue, each slot of the
    buffer outside the span of the live elements, [count] slots from
    [head] on around the ring, holds the zero value: what [Dequeue] and
    [Clear] remove is not kept alive by the buffer. *)
Theorem removed_slots_are_zero q (k : nat) :
  reachable zero q →
  Z.of_nat k < len (data q) →
  (∀ i, 0 ≤ i < count q →
     Z.of_nat k ≠ (head q + i) `mod` len (data q)) →
  data q !! k = Some zero.
Proof.
  intros Hreach Hk Hdead.
  assert (dead_zero zero q) as Hd.
  { clear k Hk Hdead.
    induction Hreach as [q Hn|c q Hr Hn|c q r q' Hreach IH He].
    - apply fresh_dead_zero. by left.
    - apply fresh_dead_zero. right. by exists c.
    - pose proof (reachable_wf zero q Hreach) as [Hinv Hmu].
      rewrite exec_locked in He.
      apply locked_inv in He as (_ & q1 & Hc & ->).
      apply dead_zero_set_mu.
      eapply critical_dead_zero; [|by apply dead_zero_set_mu|done].
      by apply cs_inv_set_mu. }
  apply Hd; [done|]. intros (i & Hi & Heq). by apply (Hdead i).
Qed.

End QueueMore.

(** * Goroutines: every run is a sequence of calls *)

Section LogFacts.
Context {T : Type} (zero : T).
Local Abbreviation Queue := (Queue T).
Local Abbreviation call := (call T).
Local Abbreviation ret := (ret T).
Local Abbreviation goroutine := (goroutine T).
Local Abbreviation world := (world T).
Implicit Types (q : Queue) (g : goroutine) (w : world) (c : call).
Implicit Types (es : list (nat * call * ret)) (progs : list (list call)).

Lemma fifo_run_snoc (cs : list call) c (l l1 l2 : list T) rs r :
  fifo_run zero cs l = (rs, l1) →
  fifo_step zero c l1 = (r, l2) →
  fifo_run zero (cs ++ [c]) l = (rs ++ [r], l2).
Proof.
  revert l rs. induction cs as [|c' cs IH]; intros l rs Hrun Hstep.
  - cbn in *. simplify_eq. by rewrite Hstep.
  - cbn [fifo_run app] in *.
    destruct (fifo_step zero c' l) as [r' l'].
    destruct (fifo_run zero cs l') as [rs' l''] eqn:Hcs.
    simplify_eq. by rewrite (IH _ _ Hcs Hstep).
Qed.

Lemma by_routine_snoc i j c r es :
  by_routine i (es ++ [(j, c, r)])
  = by_routine i es ++ (if decide (j = i) then [(j, c, r)] else []).
Proof.
  unfold by_routine. rewrite filter_app. by f_equal.
Qed.

Lemma lookup_insert_each {A} (P Q : nat → A → Prop) (l : list A) i x y :
  l !! i = Some x →
  (∀ j a, l !! j = Some a → P j a) →
  (P i x → Q i y) →
  (∀ j a, j ≠ i → P j a → Q j a) →
  ∀ j a, <[i := y]> l !! j = Some a → Q j a.
Proof.
  intros Hx HP Hi Hne j a Hj.
  destruct (decide (j = i)) as [->|Hji].
  - rewrite list_lookup_insert_eq in Hj by (by eapply lookup_lt_Some).
    simplify_eq. by apply Hi, HP.
  - rewrite list_lookup_insert_ne in Hj by done. by apply Hne, HP.
Qed.

Lemma step_log_inv progs es i w w' :
  log_inv zero progs es w → step zero i w = Some w' →
  log_inv zero progs (es ++ log_step zero i w) w'.
Proof.
  intros [Hq Hfifo Hphase Hrout] Hs.
  apply step_cases in Hs
    as (g & c & rest & q' & g' & Hg & Htodo & -> & Hcase).
  unfold log_step. rewrite Hg, Htodo.
  destruct Hcase as [(Hph & Hfree & -> & ->)
                    |[(r & Hph & Hcrit & ->)|(r & Hph & -> & ->)]];
    rewrite Hph.
  - (* Lock *)
    rewrite app_nil_r. split; cbn [shared routines].
    + by apply cs_inv_set_mu.
    + done.
    + apply Forall_insert; [done|]. by cbn.
    + eapply (lookup_insert_each _ _ _ _ _ _ Hg Hrout); [|done].
      unfold remaining, leaving. rewrite Hph, Htodo. by cbn.
  - (* the critical section *)
    rewrite Hcrit.
    apply critical_Some in Hcrit as (Hr & Hcont & Hq' & _); [|done].
    split; cbn [shared routines].
    + done.
    + unfold calls_of, rets_of in *. rewrite !fmap_app. cbn.
      eapply fifo_run_snoc; [done|].
      rewrite Hr, Hcont. by destruct (fifo_step zero c _).
    + apply Forall_insert; [done|]. by cbn.
    + eapply (lookup_insert_each _ _ _ _ _ _ Hg Hrout).
      * rewrite by_routine_snoc, decide_True by done.
        unfold remaining, leaving, calls_of, rets_of.
        rewrite Hph, Htodo, !fmap_app. cbn.
        intros [-> ->]. by rewrite drop_0, app_nil_r, <- app_assoc.
      * intros j a Hji. by rewrite by_routine_snoc, decide_False, app_nil_r.
  - (* the deferred Unlock *)
    rewrite app_nil_r. split; cbn [shared routines].
    + by apply cs_inv_set_mu.
    + done.
    + apply Forall_insert; [done|]. by cbn.
    + eapply (lookup_insert_each _ _ _ _ _ _ Hg Hrout); [|done].
      unfold remaining, leaving. rewrite Hph, Htodo. cbn.
      rewrite drop_0. by rewrite app_nil_r.
Qed.

Lemma run_log_inv progs es sched w w' :
  log_inv zero progs es w → run zero sched w = Some w' →
  log_inv zero progs (es ++ log zero sched w) w'.
Proof.
  revert es w. induction sched as [|i sched IH]; intros es w Hinv Hr.
  - cbn in *. simplify_eq. by rewrite app_nil_r.
  - cbn [run log] in *.
    destruct (step zero i w) as [w1|] eqn:Hs; [|done].
    cbn in Hr. rewrite app_assoc.
    apply IH; [|done]. by apply step_log_inv.
Qed.

Lemma start_log_inv progs q :
  fresh zero q → log_inv zero progs [] (start q progs).
Proof.
  intros [[Hinv Hmu] Hc]%fresh_wf. unfold start. split; cbn [shared routines].
  - done.
  - cbn. by rewrite (contents_empty zero q Hc).
  - by apply Forall_fmap, Forall_true.
  - intros i g Hg. rewrite list_lookup_fmap in Hg.
    destruct (progs !! i) as [p|]; [|done]. cbn in Hg. by simplify_eq.
Qed.

Lemma step_routines_length i w w' :
  step zero i w = Some w' → length (routines w') = length (routines w).
Proof.
  intros Hs. apply step_cases in Hs as (? & ? & ? & ? & ? & _ & _ & -> & _).
  cbn. by rewrite length_insert.
Qed.

Lemma run_routines_length sched w w' :
  run zero sched w = Some w' → length (routines w') = length (routines w).
Proof.
  revert w. induction sched as [|i sched IH]; intros w Hr.
  - cbn in Hr. by simplify_eq.
  - cbn in Hr. destruct (step zero i w) as [w1|] eqn:Hs; [|done].
    cbn in Hr. rewrite (IH _ Hr). by eapply step_routines_length.
Qed.

(** Linearizability.  Goroutines run any programs of calls on a fresh
    queue, interleaved in any order the mutex allows, to the end.  Put
    the calls in the order in which their critical sections ran: made in
    that order on a list used as a queue, they return what they returned
    in the run and leave the elements the queue is left with; and each
    goroutine finds in that order its own calls, in the order of its
    program, with the results it got. *)
Theorem runs_are_linearizable progs q0 sched w :
  fresh zero q0 →
  run zero sched (start q0 progs) = Some w →
  finished w →
  let es := log zero sched (start q0 progs) in
  fifo_run zero (calls_of es) [] = (rets_of es, contents zero (shared w))
  ∧ ∀ i p, progs !! i = Some p →
      ∃ g, routines w !! i = Some g
        ∧ p = calls_of (by_routine i es)
        ∧ got g = rets_of (by_routine i es).
Proof.
  intros Hfresh Hrun Hfin es.
  pose proof (run_log_inv progs [] sched _ _
                (start_log_inv progs q0 Hfresh) Hrun) as Hinv.
  rewrite app_nil_l in Hinv. fold es in Hinv.
  destruct Hinv as [_ Hfifo Hphase Hrout].
  split; [done|]. intros i p Hp.
  destruct (lookup_lt_is_Some_2 (routines w) i) as [g Hg].
  { rewrite (run_routines_length _ _ _ Hrun). unfold start. cbn.
    rewrite length_fmap. by eapply lookup_lt_Some. }
  exists g. split; [done|].
  destruct (Hrout i g Hg) as [Hcalls Hrets].
  unfold finished in Hfin.
  pose proof (Forall_lookup_1 _ _ _ _ Hfin Hg) as Htodo.
  pose proof (Forall_lookup_1 _ _ _ _ Hphase Hg) as Hidle.
  cbn beta in Htodo, Hidle.
  assert (at_phase g = Calling) as Hph.
  { unfold in_cs in Hidle. destruct (at_phase g); [done|by destruct Hidle..]. }
  unfold remaining, leaving in *. rewrite Hph, Htodo in *.
  rewrite app_nil_r in *. split; congruence.
Qed.

End LogFacts.

(** * More of Optional *)

Section OptionalMore.
Context {T : Type} (zero : T).
Local Abbreviation Optional := (Optional T).
Implicit Types (o a b c : Optional) (v d : T).

(** The four combinations of pointer and flag. *)
Local Ltac states o := destruct o as [[?|] []].


(** Access by value.  On [Some(v)] the accessors [Unwrap], [UnwrapOr],
    [UnwrapOrElse] and [Expect] all yield [v].  On every other Optional,
    those of which [IsNullOrNone] holds, [None] and [Some(nil)] alike,
    they fall back: to the zero value and [false], to the default, to the
    computed default, and to [panic(message)]. *)
Theorem access_by_value o d (dflt : unit → T) (message : string) :
  (∀ v, o = Some_ v →
     Unwrap_ zero o = Ok (v, true)
     ∧ UnwrapOr o d = Ok v
     ∧ UnwrapOrElse o dflt = Ok v
     ∧ Expect o message = Ok v)
  ∧ (IsNullOrNone o = true →
       Unwrap_ zero o = Ok (zero, false)
       ∧ UnwrapOr o d = Ok d
       ∧ UnwrapOrElse o dflt = Ok (dflt tt)
       ∧ Expect o message = Err (Panicked message))
  ∧ ((∃ v, o = Some_ v) ∨ IsNullOrNone o = true).
Proof.
  split_and!.
  - by intros v ->.
  - by states o.
  - states o; eauto.
Qed.

(** Access by pointer.  A present null, [Some(nil)], counts as present
    for the pointer accessors: [UnwrapPtr] reports [true], and
    [UnwrapOrPtr], [UnwrapOrElsePtr] and [ExpectPtr] return the [nil]
    pointer, not the default and no panic, while the accessors by value
    treat it as empty. *)
Theorem null_is_present_by_pointer o (dp : option T)
    (dfltp : unit → option T) d (message : string) :
  IsNull o = true →
  UnwrapPtr o = (None, true)
  ∧ UnwrapOrPtr o dp = None
  ∧ UnwrapOrElsePtr o dfltp = None
  ∧ ExpectPtr o message = Ok None
  ∧ Unwrap_ zero o = Ok (zero, false)
  ∧ UnwrapOr o d = Ok d
  ∧ Expect o message = Err (Panicked message).
Proof. by states o. Qed.

(** Contains.  [ContainsComparable] says [true] exactly on [Some] of a
    value that [==] finds equal to the value asked for, and [Contains]
    with a comparison exactly on [Some] of a value the comparison accepts:
    never on [None] or [Some(nil)]. *)
Theorem Contains_iff (equal : T → T → result panic bool) o v
    (cmp : T → T → bool) :
  (ContainsComparable equal o v = Ok true
   ↔ ∃ x, o = Some_ x ∧ equal v x = Ok true)
  ∧ (Contains o v cmp = Ok true ↔ ∃ x, o = Some_ x ∧ cmp x v = true).
Proof.
  split; split.
  - intros Hc. states o; cbn in Hc; try done. by eexists.
  - by intros (x & -> & Hx).
  - intros Hc. states o; cbn in Hc; try done.
    injection Hc as Hc. by eexists.
  - intros (x & -> & Hx). unfold Contains, Some_. cbn. by rewrite Hx.
Qed.

(** Clone.  [Clone] returns an Optional in the state of its receiver:
    the same flag, and a pointer that is [nil] when the receiver's is and
    points to an equal value otherwise. *)
Theorem Clone_same_state o : Clone o = Ok o.
Proof. by states o. Qed.


(** Xor.  [Xor] is present exactly when one argument is present and the
    other is not, and is then that argument; it is [None()] otherwise;
    and the order of the arguments does not matter. *)
Theorem Xor_laws a b :
  IsSome (Xor a b) = xorb (IsSome a) (IsSome b)
  ∧ Xor a b = Xor b a
  ∧ (IsSome a = true → IsNone b = true → Xor a b = a)
  ∧ (IsSome a = IsSome b → Xor a b = None_).
Proof. states a; by states b. Qed.

(** Filter.  [Filter] returns its receiver when that is [Some(v)] and the
    predicate accepts [v], and [None()] in every other case, [Some(nil)]
    included; so filtering twice is filtering by both predicates. *)
Theorem Filter_laws o (p p' : T → bool) :
  ∃ r, Filter o p = Ok r
    ∧ (∀ v, o = Some_ v → p v = true → r = o)
    ∧ ((∀ v, o = Some_ v → p v = false) → r = None_)
    ∧ IsNull r = false
    ∧ Filter r p' = Filter o (λ v, p v && p' v).
Proof.
  states o; cbn; eexists; (split; [done|]); try by split_and!.
  destruct (p t) eqn:Hp; cbn; rewrite ?Hp; cbn; split_and!; try done.
  - intros Hv. by rewrite (Hv t eq_refl) in Hp.
  - unfold Filter. cbn. by rewrite Hp.
  - intros v [= ->]. congruence.
  - unfold Filter. cbn. by rewrite Hp.
Qed.

(** Value and pointer variants.  Each function that works on the value
    does what its pointer variant does when [nil] is treated as empty:
    [Filter] is [FilterPtr] with a predicate that rejects [nil], [Match] is
    [MatchPtr] with a callback that sends [nil] to the none-callback, and
    [Unwrap], [UnwrapOr] and [UnwrapOrElse] return what [UnwrapPtr] and
    [UnwrapOrPtr] point to, or the fallback when that is [nil]. *)
Theorem value_variant_of_pointer_variant {S : Type} o d
    (dflt : unit → T) (p : T → bool)
    (some : T → S → S) (none : S → S) (s : S) :
  Filter o p
  = Ok (FilterPtr o (λ ptr, match ptr with Some v => p v | None => false end))
  ∧ Match o some none s
    = Ok (MatchPtr o (λ ptr, match ptr with
                             | Some v => some v
                             | None => none
                             end) none s)
  ∧ Unwrap_ zero o
    = Ok (match UnwrapPtr o with
          | (Some v, true) => (v, true)
          | _ => (zero, false)
          end)
  ∧ UnwrapOr o d = Ok (default d (UnwrapOrPtr o None))
  ∧ UnwrapOrElse o dflt = Ok (default (dflt tt) (UnwrapOrPtr o None)).
Proof.
  by states o.
Qed.

End OptionalMore.

Section OptionalJSONMore.
Context {T : Type} (TrimSpace : list byte → list byte) `{JSON T}.
Local Abbreviation Optional := (Optional T).
Implicit Types (o a b : Optional) (data : list byte).

Local Ltac states o := destruct o as [[?|] []].

(** The invariant of the representation.  [Some] and [None] build
    Optionals whose pointer is [nil] when the flag is off, and
    [UnmarshalJSON], [Take], [Clone], [Filter], [FilterPtr], [Or],
    [OrElse] and [Xor] return such Optionals when they are given such. *)
Theorem well_formed_kept a b (v : T) data (p : T → bool)
    (pp : option T → bool) (f : unit → Optional) :
  well_formed a → well_formed b → well_formed (f tt) →
  well_formed (Some_ v)
  ∧ well_formed (None_ : Optional)
  ∧ well_formed (UnmarshalJSON TrimSpace a data).1
  ∧ well_formed (Take (Some a)).1
  ∧ (∀ x, (Take (Some a)).2 = Some x → well_formed x)
  ∧ (∀ r, Clone a = Ok r → well_formed r)
  ∧ (∀ r, Filter a p = Ok r → well_formed r)
  ∧ well_formed (FilterPtr a pp)
  ∧ well_formed (Or a b)
  ∧ well_formed (OrElse a f)
  ∧ well_formed (Xor a b).
Proof.
  intros Ha Hb Hf. split_and!; try done.
  - unfold UnmarshalJSON. case_decide; [done|].
    by destruct (Unmarshal (TrimSpace data)).
  - intros x [= <-]. done.
  - intros r. unfold Clone. states a; cbn; by intros [= <-].
  - intros r. unfold Filter. states a; cbn; try by intros [= <-].
    destruct (p t); by intros [= <-].
  - unfold FilterPtr. by destruct (IsSome a && pp (value a)).
  - unfold Or. by destruct (IsSome a).
  - unfold OrElse. by destruct (IsSome a).
  - unfold Xor. destruct (IsSome a && IsNone b); [done|].
    by destruct (IsNone a && IsSome b).
Qed.

(** None on the wire.  [MarshalJSON] looks at the pointer and not at the
    flag: a field holding [None()] that is not left out is written as
    [null], the very bytes of [Some(nil)], and reading those bytes back
    gives [Some(nil)] whatever the field held.  Under [omitzero] a field
    is left out exactly when it holds an empty Optional. *)
Theorem None_on_the_wire o :
  TrimSpace null_literal = null_literal →
  marshal_field false (None_ : Optional) = Ok (Some null_literal)
  ∧ marshal_field false (Some_nil : Optional) = Ok (Some null_literal)
  ∧ unmarshal_field TrimSpace (Some null_literal) o = (Some_nil, None)
  ∧ (marshal_field true o = Ok None ↔ IsNone o = true).
Proof.
  intros Htrim. split_and!; try done.
  - cbn. unfold UnmarshalJSON. by rewrite decide_True.
  - unfold marshal_field, MarshalJSON, Marshal_ptr.
    states o; cbn; split; try done.
    destruct (Marshal t); done.
Qed.

(** UnmarshalJSON overwrites.  A call of [UnmarshalJSON] that returns no
    error leaves a present Optional, never [None()], and one that does
    not depend on what the receiver held before. *)
Theorem UnmarshalJSON_overwrites o o' data :
  (UnmarshalJSON TrimSpace o data).2 = None →
  UnmarshalJSON TrimSpace o data = UnmarshalJSON TrimSpace o' data
  ∧ IsSome (UnmarshalJSON TrimSpace o data).1 = true.
Proof.
  unfold UnmarshalJSON. case_decide; [done|].
  by destruct (Unmarshal (TrimSpace data)).
Qed.

End OptionalJSONMore.

(** * Instances *)

Lemma call_sequence_refines_fifo_witness :
  let cs := [CEnqueue 1; CEnqueue 2; CEnqueue 3; CPeek; CDequeue; CLen;
             CClear; CIsEmpty; CDequeue] in
  let q0 := mkQueue false [0; 0] 0 0 0 in
  ∃ q', exec_all 0 cs q0 = Some ((fifo_run 0 cs []).1, q')
    ∧ contents 0 q' = (fifo_run 0 cs []).2
    ∧ reachable 0 q'.
Proof.
  intros cs q0. apply (call_sequence_refines_fifo 0 cs q0).
  - apply reachable_New. reflexivity.
  - vm_compute. discriminate.
Defined.

Lemma NewWithCapacity_no_regrowth_witness :
  ∃ q0 q, NewWithCapacity 0 3 = Some q0
    ∧ enqueue_all 0 [7; 8; 9] q0 = Some q
    ∧ len (data q) = 3
    ∧ contents 0 q = [7; 8; 9].
Proof.
  apply (NewWithCapacity_no_regrowth 0 3 [7; 8; 9]).
  - split; vm_compute; discriminate.
  - vm_compute. discriminate.
Defined.

Lemma Peek_is_next_Dequeue_witness :
  ∃ r q', Peek 0 (mkQueue false [5; 0] 0 1 1)
          = Some (r, mkQueue false [5; 0] 0 1 1)
    ∧ Dequeue 0 (mkQueue false [5; 0] 0 1 1) = Some (r, q').
Proof.
  apply (Peek_is_next_Dequeue 0 (mkQueue false [5; 0] 0 1 1)).
  apply (reachable_call 0 (CEnqueue 5) (mkQueue false [0; 0] 0 0 0) RUnit).
  - apply reachable_New. reflexivity.
  - reflexivity.
Defined.

Lemma Dequeue_empty_idle_witness :
  dequeue_n 0 3 (mkQueue false [0; 0] 0 0 0)
  = Some ([(0, false); (0, false); (0, false)], mkQueue false [0; 0] 0 0 0).
Proof.
  apply (Dequeue_empty_idle 0 3 (mkQueue false [0; 0] 0 0 0)).
  - apply reachable_New. reflexivity.
  - reflexivity.
Defined.

Lemma capacity_doubles_when_full_witness :
  (is_enqueue (CEnqueue 7) = true → 2 = len [1; 2] →
     len [1; 2; 7; 0] = 2 * len [1; 2] ∧ 3 = len [1; 2] + 1)
  ∧ (¬ (is_enqueue (CEnqueue 7) = true ∧ 2 = len [1; 2]) →
       len [1; 2; 7; 0] = len [1; 2]).
Proof.
  apply (capacity_doubles_when_full 0 (CEnqueue 7)
           (mkQueue false [1; 2] 0 0 2) RUnit
           (mkQueue false [1; 2; 7; 0] 0 3 3)).
  - apply (reachable_call 0 (CEnqueue 2) (mkQueue false [1; 0] 0 1 1) RUnit).
    + apply (reachable_call 0 (CEnqueue 1) (mkQueue false [0; 0] 0 0 0)
               RUnit).
      * apply reachable_New. reflexivity.
      * reflexivity.
    + reflexivity.
  - reflexivity.
Defined.

Lemma Clear_resets_witness :
  ∃ q', Clear 0 (mkQueue false [5; 0] 0 1 1) = Some (tt, q')
    ∧ len (data q') = 2
    ∧ head q' = 0 ∧ tail q' = 0 ∧ count q' = 0
    ∧ (∀ k : nat, Z.of_nat k < 2 → data q' !! k = Some 0)
    ∧ Dequeue 0 q' = Some ((0, false), q')
    ∧ Peek 0 q' = Some ((0, false), q').
Proof.
  apply (Clear_resets 0 (mkQueue false [5; 0] 0 1 1)).
  apply (reachable_call 0 (CEnqueue 5) (mkQueue false [0; 0] 0 0 0) RUnit).
  - apply reachable_New. reflexivity.
  - reflexivity.
Defined.

Lemma removed_slots_are_zero_witness :
  ([0; 2] : list Z) !! 0%nat = Some 0.
Proof.
  apply (removed_slots_are_zero 0 (mkQueue false [0; 2] 1 0 1) 0).
  - apply (reachable_call 0 CDequeue (mkQueue false [1; 2] 0 0 2)
             (RElem 1 true)).
    + apply (reachable_call 0 (CEnqueue 2) (mkQueue false [1; 0] 0 1 1)
               RUnit).
      * apply (reachable_call 0 (CEnqueue 1) (mkQueue false [0; 0] 0 0 0)
                 RUnit).
        -- apply reachable_New. reflexivity.
        -- reflexivity.
      * reflexivity.
    + reflexivity.
  - vm_compute. reflexivity.
  - intros i Hi. cbn in Hi. assert (i = 0) as -> by lia.
    vm_compute. discriminate.
Defined.

(** One goroutine enqueues twice, one takes and looks, one asks for the
    length; their calls alternate. *)
Lemma runs_are_linearizable_witness :
  let q0 := mkQueue false [0; 0] 0 0 0 in
  let progs := [[CEnqueue 1; CEnqueue 2]; [CDequeue; CPeek]; [CLen]] in
  let sched := [0; 0; 0; 1; 1; 1; 0; 0; 0; 2; 2; 2; 1; 1; 1]%nat in
  ∃ w, run 0 sched (start q0 progs) = Some w
    ∧ finished w
    ∧ let es := log 0 sched (start q0 progs) in
      fifo_run 0 (calls_of es) [] = (rets_of es, contents 0 (shared w))
      ∧ ∀ i p, progs !! i = Some p →
          ∃ g, routines w !! i = Some g
            ∧ p = calls_of (by_routine i es)
            ∧ got g = rets_of (by_routine i es).
Proof.
  intros q0 progs sched. eexists.
  split; [vm_compute; reflexivity|].
  split; [repeat constructor|].
  apply (runs_are_linearizable 0 progs q0 sched).
  - left. reflexivity.
  - vm_compute. reflexivity.
  - repeat constructor.
Defined.

Lemma null_is_present_by_pointer_witness :
  UnwrapPtr (Some_nil : Optional Z) = (None, true)
  ∧ UnwrapOrPtr (Some_nil : Optional Z) (Some 7) = None
  ∧ UnwrapOrElsePtr (Some_nil : Optional Z) (λ _, Some 7) = None
  ∧ ExpectPtr (Some_nil : Optional Z) "no value" = Ok None
  ∧ Unwrap_ 0 (Some_nil : Optional Z) = Ok (0, false)
  ∧ UnwrapOr (Some_nil : Optional Z) 7 = Ok 7
  ∧ Expect (Some_nil : Optional Z) "no value" = Err (Panicked "no value").
Proof.
  apply (null_is_present_by_pointer 0 (Some_nil : Optional Z) (Some 7)
           (λ _, Some 7) 7 "no value").
  reflexivity.
Defined.

Lemma well_formed_kept_witness :
  well_formed (Some_ true)
  ∧ well_formed (None_ : Optional bool)
  ∧ well_formed (UnmarshalJSON trim_ascii (Some_ false) (lit "true")).1
  ∧ well_formed (Take (Some (Some_ false))).1
  ∧ (∀ x, (Take (Some (Some_ false))).2 = Some x → well_formed x)
  ∧ (∀ r, Clone (Some_ false) = Ok r → well_formed r)
  ∧ (∀ r, Filter (Some_ false) negb = Ok r → well_formed r)
  ∧ well_formed (FilterPtr (Some_ false) (λ _, true))
  ∧ well_formed (Or (Some_ false) None_)
  ∧ well_formed (OrElse (Some_ false) (λ _, Some_nil))
  ∧ well_formed (Xor (Some_ false) None_).
Proof.
  apply (well_formed_kept trim_ascii (Some_ false) None_ true (lit "true")
           negb (λ _, true) (λ _, Some_nil)).
  - intros Hn. discriminate Hn.
  - intros _. reflexivity.
  - intros Hn. discriminate Hn.
Defined.

Lemma None_on_the_wire_witness :
  marshal_field false (None_ : Optional bool) = Ok (Some null_literal)
  ∧ marshal_field false (Some_nil : Optional bool) = Ok (Some null_literal)
  ∧ unmarshal_field trim_ascii (Some null_literal) (Some_ true)
    = (Some_nil, None)
  ∧ (marshal_field true (Some_ true) = Ok None ↔ IsNone (Some_ true) = true).
Proof.
  apply (None_on_the_wire trim_ascii (Some_ true)). reflexivity.
Defined.

Lemma UnmarshalJSON_overwrites_witness :
  UnmarshalJSON trim_ascii (Some_ true) (lit " false ")
  = UnmarshalJSON trim_ascii None_ (lit " false ")
  ∧ IsSome (UnmarshalJSON trim_ascii (Some_ true) (lit " false ")).1 = true.
Proof.
  apply (UnmarshalJSON_overwrites trim_ascii (Some_ true) None_
           (lit " false ")).
  reflexivity.
Defined.

(** * Range *)

Section RangeFacts.
Import _range.
Context {T : Type}.
Implicit Types (r : Range T) (less : T → T → bool).

(** IsAny.  [IsAny] holds exactly of the ranges that contain every value
    under every ordering: those with no boundary value on either side,
    the zero [Range] among them.  A boundary whose [Value] is [nil] is
    no boundary. *)
Theorem IsAny_iff_contains_all r :
  IsAny r = true ↔ ∀ val less, Contains r val less = true.
Proof.
  split.
  - intros Hany val less.
    destruct r as [[[[m|] mi]|] [[[x|] xi]|]]; by cbn in *.
  - intros Hall. destruct r as [mn mx].
    destruct mn as [[[m|] mi]|].
    + specialize (Hall m (λ _ _, mi)).
      unfold Contains, above_min in Hall. cbn in Hall. by destruct mi.
    + destruct mx as [[[x|] xi]|]; cbn; try done.
      specialize (Hall x (λ _ _, xi)). by destruct xi.
    + destruct mx as [[[x|] xi]|]; cbn; try done.
      specialize (Hall x (λ _ _, xi)). by destruct xi.
Qed.

Lemma above_min_up r (u v : T) less :
  (∀ a b c, less a b = false → less b c = false → less a c = false) →
  above_min r u less = true → less v u = false →
  above_min r v less = true.
Proof.
  intros Hneg Hu Huv. unfold above_min in *.
  destruct (Min r) as [[[m|] mi]|]; cbn in *; try done.
  destruct mi.
  - destruct (less u m) eqn:Hum; [done|].
    by rewrite (Hneg v u m Huv Hum).
  - destruct (less m u) eqn:Hmu; [|done].
    destruct (less m v) eqn:Hmv; [done|].
    by rewrite (Hneg m v u Hmv Huv) in Hmu.
Qed.

Lemma below_max_down r (v w : T) less :
  (∀ a b c, less a b = false → less b c = false → less a c = false) →
  below_max r w less = true → less w v = false →
  below_max r v less = true.
Proof.
  intros Hneg Hw Hvw. unfold below_max in *.
  destruct (Max r) as [[[x|] xi]|]; cbn in *; try done.
  destruct xi.
  - destruct (less x w) eqn:Hxw; [done|].
    by rewrite (Hneg x w v Hxw Hvw).
  - destruct (less w x) eqn:Hwx; [|done].
    destruct (less v x) eqn:Hvx; [done|].
    by rewrite (Hneg w v x Hvw Hvx) in Hwx.
Qed.

(** Convexity.  Let the complement of [less] be transitive, as it is for
    every [less] that orders the values in a line.  Then a range has no
    holes: with [u] and [w] it contains every [v] that is neither below
    [u] nor above [w]. *)
Theorem Contains_convex r (u v w : T) less :
  (∀ a b c, less a b = false → less b c = false → less a c = false) →
  Contains r u less = true →
  Contains r w less = true →
  less v u = false →
  less w v = false →
  Contains r v less = true.
Proof.
  intros Hneg Hu Hw Huv Hvw. unfold Contains in *.
  destruct (above_min r u less) eqn:Hmin; [|done].
  destruct (below_max r w less) eqn:Hmax;
    [|by destruct (above_min r w less)].
  rewrite (above_min_up r u v less Hneg Hmin Huv).
  by rewrite (below_max_down r v w less Hneg Hmax Hvw).
Qed.

End RangeFacts.

(** Intervals of integers.  With [<] on [int], the ranges made by the
    constructors are the intervals their names say: [Closed] is
    [[min, max]], [Open] is [(min, max)], [HalfOpen] is [[min, max)], and
    the four one-sided ones are the half-lines; a bound that lies below
    the other leaves the range empty. *)
Theorem constructors_are_intervals (a b v : Z) :
  (_range.ContainsOrdered (_range.Closed a b) v = true ↔ a ≤ v ≤ b)
  ∧ (_range.ContainsOrdered (_range.Open a b) v = true ↔ a < v < b)
  ∧ (_range.ContainsOrdered (_range.HalfOpen a b) v = true ↔ a ≤ v < b)
  ∧ (_range.ContainsOrdered (_range.GreaterThan a) v = true ↔ a < v)
  ∧ (_range.ContainsOrdered (_range.AtLeast a) v = true ↔ a ≤ v)
  ∧ (_range.ContainsOrdered (_range.LessThan b) v = true ↔ v < b)
  ∧ (_range.ContainsOrdered (_range.AtMost b) v = true ↔ v ≤ b)
  ∧ (b < a → _range.ContainsOrdered (_range.Closed a b) v = false).
Proof.
  unfold _range.ContainsOrdered, _range.Contains, _range.above_min,
    _range.below_max. cbn.
  split_and!; [repeat case_bool_decide; cbn; split; done || lia..|].
  intros Hba. repeat case_bool_decide; cbn; done || lia.
Qed.

Lemma Contains_convex_witness :
  _range.Contains (_range.Closed 1 5) 3 Z.ltb = true.
Proof.
  apply (Contains_convex (_range.Closed 1 5) 1 3 5 Z.ltb).
  - intros a b c Hab Hbc. rewrite Z.ltb_ge in *. lia.
  - reflexivity.
  - reflexivity.
  - reflexivity.
  - reflexivity.
Defined.
